(** * OllamaModelManager: the gateway of [src/server.js]

    A shallow embedding of the endpoint registry, the active-target store,
    the backend client calls and the streaming relay of [server.js], and the
    properties of them that the specification states.

    Conventions.
    - A JavaScript string is a [string]; each character stands for one code
      unit (the range U+0000..U+00FF).
    - [null] and [undefined] results of a lookup are [None].
    - Everything the server sends out is recorded: the outbound HTTP requests
      of a handler as a list of [request], the operations on a streamed
      client response as a list of [res_op]. What the backend answers is an
      argument of the handler.
    - The body of a request has been parsed into an object by
      [express.json()]; a handler takes the fields it reads.
    - The basic-auth middleware and the static files are not part of the
      development. *)

From Stdlib Require Import String Ascii List Bool Arith ZArith Lia.
From Stdlib Require Import Permutation Sorted OrderedTypeEx.
Import ListNotations.
Set Warnings "-register-all".
Open Scope string_scope.
Open Scope list_scope.

(* ================================================================== *)
(** ** JavaScript string primitives used by the server *)

Module JS.

(** White space of [String.prototype.trim] among the code units below 256:
    TAB, LF, VT, FF, CR, SP and NBSP. *)
Definition is_ws (c : ascii) : bool :=
  let n := nat_of_ascii c in
  ((n =? 9) || (n =? 10) || (n =? 11) || (n =? 12) || (n =? 13)
   || (n =? 32) || (n =? 160))%nat.

Fixpoint trimStart (s : string) : string :=
  match s with
  | EmptyString => EmptyString
  | String c r => if is_ws c then trimStart r else s
  end.

Fixpoint trimEnd (s : string) : string :=
  match s with
  | EmptyString => EmptyString
  | String c r =>
      match trimEnd r with
      | EmptyString => if is_ws c then EmptyString else String c EmptyString
      | r' => String c r'
      end
  end.

(** [s.trim()] *)
Definition trim (s : string) : string := trimEnd (trimStart s).

(** Truthiness of a string: [Boolean(s)], [if (s)], [s || d]. *)
Definition truthy (s : string) : bool :=
  match s with EmptyString => false | _ => true end.

(** [s || null] for a string [s]. *)
Definition or_null (s : string) : option string :=
  if truthy s then Some s else None.

(** [s.split(sep)] for a one-character separator: never the empty list. *)
Fixpoint split (sep : ascii) (s : string) : list string :=
  match s with
  | EmptyString => [EmptyString]
  | String c r =>
      if Ascii.eqb c sep then EmptyString :: split sep r
      else match split sep r with
           | h :: t => String c h :: t
           | [] => [String c EmptyString]
           end
  end.

(** [s.indexOf(c)] for a one-character needle; [None] is JavaScript's -1. *)
Fixpoint indexOf (c : ascii) (s : string) : option nat :=
  match s with
  | EmptyString => None
  | String d r =>
      if Ascii.eqb d c then Some 0
      else match indexOf c r with
           | Some i => Some (S i)
           | None => None
           end
  end.

(** [s.slice(0, n)] *)
Fixpoint slice_to (n : nat) (s : string) : string :=
  match n, s with
  | S k, String c r => String c (slice_to k r)
  | _, _ => EmptyString
  end.

(** [s.slice(n)] *)
Fixpoint slice_from (n : nat) (s : string) : string :=
  match n, s with
  | S k, String _ r => slice_from k r
  | _, _ => s
  end.

(** [xs.join(sep)] on strings. *)
Fixpoint join (sep : string) (xs : list string) : string :=
  match xs with
  | [] => EmptyString
  | [x] => x
  | x :: rest => x ++ sep ++ join sep rest
  end.

(** The character [c] does not occur in [s]. *)
Fixpoint lacks (c : ascii) (s : string) : bool :=
  match s with
  | EmptyString => true
  | String d r => negb (Ascii.eqb d c) && lacks c r
  end.

End JS.

(* ================================================================== *)
(** ** EndpointRegistry: [getEndpointConfigs], [getEndpoints], [getApiKeyFor] *)

Module EndpointRegistry.

Record EndpointConfig := mkConfig { url : string; apiKey : option string }.

Definition default_raw : string := "http://localhost:11434".

(** [process.env.OLLAMA_ENDPOINTS || 'http://localhost:11434']: the variable
    is unset ([None]) or holds a string. *)
Definition raw_of (env : option string) : string :=
  match env with
  | Some s => if JS.truthy s then s else default_raw
  | None => default_raw
  end.

(** The callback of the last [.map] of [getEndpointConfigs]. *)
Definition parse_item (item : string) : EndpointConfig :=
  match JS.indexOf "_" item with
  | None => mkConfig item None
  | Some idx =>
      mkConfig (JS.trim (JS.slice_to idx item))
               (JS.or_null (JS.trim (JS.slice_from (idx + 1) item)))
  end.

(** The entries of the raw string: split at commas, trimmed, empty ones
    removed. *)
Definition entries (raw : string) : list string :=
  filter JS.truthy (map JS.trim (JS.split "," raw)).

Definition getEndpointConfigs (env : option string) : list EndpointConfig :=
  map parse_item (entries (raw_of env)).

Definition getEndpoints (env : option string) : list string :=
  map url (getEndpointConfigs env).

(** [hit?.apiKey || null] where [hit] is the first entry whose url is [u];
    [u] is [None] when the caller passes [undefined]. *)
Definition key_or_null (k : option string) : option string :=
  match k with
  | Some s => JS.or_null s
  | None => None
  end.

Definition url_is (u : option string) (c : EndpointConfig) : bool :=
  match u with
  | Some s => String.eqb (url c) s
  | None => false
  end.

Definition getApiKeyFor (env : option string) (u : option string)
  : option string :=
  match find (url_is u) (getEndpointConfigs env) with
  | Some hit => key_or_null (apiKey hit)
  | None => None
  end.

End EndpointRegistry.

(* ================================================================== *)
(** ** JSON values, [JSON.stringify] of a string, and the texts that
       [JSON.parse] accepts *)

Module Json.

(** A JSON value as it sits in a JavaScript variable. An object is the list
    of its fields in order; a property is looked up at its first field of
    that name. A number is kept as an integer: the server only passes
    numbers on. *)
Inductive json :=
  | JNull
  | JBool (b : bool)
  | JNum (n : Z)
  | JStr (s : string)
  | JArr (items : list json)
  | JObj (fields : list (string * json)).

Definition obj := list (string * json).

Fixpoint lookup (k : string) (o : obj) : option json :=
  match o with
  | [] => None
  | (k', v) :: rest => if String.eqb k' k then Some v else lookup k rest
  end.

(** [{...o, k: v}]: an existing key keeps its place and takes the new value,
    a new key goes last. *)
Fixpoint set_field (k : string) (v : json) (o : obj) : obj :=
  match o with
  | [] => [(k, v)]
  | (k', v') :: rest =>
      if String.eqb k' k then (k', v) :: rest
      else (k', v') :: set_field k v rest
  end.

(** [x.k] on a value that is neither [null] nor [undefined]: [None] is
    [undefined]. Only own fields of objects are ever asked for. *)
Definition prop (x : json) (k : string) : option json :=
  match x with
  | JObj o => lookup k o
  | _ => None
  end.

(** [x?.k] where [x] may be [undefined] or [null]. *)
Definition opt_prop (x : option json) (k : string) : option json :=
  match x with
  | None | Some JNull => None
  | Some v => prop v k
  end.

Definition truthy (x : json) : bool :=
  match x with
  | JNull => false
  | JBool b => b
  | JNum n => negb (Z.eqb n 0)
  | JStr s => JS.truthy s
  | JArr _ | JObj _ => true
  end.

(** [x || d] *)
Definition or_default (x : option json) (d : json) : json :=
  match x with
  | Some v => if truthy v then v else d
  | None => d
  end.

(** *** [JSON.stringify] of a string *)

Definition hex_digit (n : nat) : ascii :=
  if (n <? 10)%nat then ascii_of_nat (48 + n) else ascii_of_nat (87 + n).

(** The double quote, as a character. *)
Definition dquote : ascii := "034"%char.

Definition escape_char (c : ascii) : string :=
  let n := nat_of_ascii c in
  if (n =? 34)%nat then String "\" (String dquote "")
  else if (n =? 92)%nat then "\\"
  else if (n =? 8)%nat then "\b"
  else if (n =? 12)%nat then "\f"
  else if (n =? 10)%nat then "\n"
  else if (n =? 13)%nat then "\r"
  else if (n =? 9)%nat then "\t"
  else if (n <? 32)%nat then
    "\u00" ++ String (hex_digit (n / 16)) (String (hex_digit (n mod 16)) "")
  else String c "".

Fixpoint escape (s : string) : string :=
  match s with
  | EmptyString => EmptyString
  | String c r => escape_char c ++ escape r
  end.

Definition quote (s : string) : string :=
  String dquote (escape s ++ String dquote "").

(** A text written with single quotes for the double ones, so that JSON
    texts can be spelled in this file: [dq "{'a':1}"] is [{"a":1}]. *)
Fixpoint dq (s : string) : string :=
  match s with
  | EmptyString => EmptyString
  | String c r => String (if Ascii.eqb c "'" then dquote else c) (dq r)
  end.

(** *** The texts [JSON.parse] accepts

    A recogniser for the JSON grammar of ECMA-262 (24.5.1): white space is
    TAB, LF, CR and SP; a string holds no raw control character and only the
    escapes of the grammar; a number has no leading zero, and digits after
    a point and after an exponent mark. *)

Definition is_json_ws (c : ascii) : bool :=
  let n := nat_of_ascii c in
  ((n =? 9) || (n =? 10) || (n =? 13) || (n =? 32))%nat.

Fixpoint skip_ws (s : string) : string :=
  match s with
  | String c r => if is_json_ws c then skip_ws r else s
  | EmptyString => EmptyString
  end.

Definition is_digit (c : ascii) : bool :=
  let n := nat_of_ascii c in ((48 <=? n) && (n <=? 57))%nat.

Definition is_hex (c : ascii) : bool :=
  let n := nat_of_ascii c in
  is_digit c || ((97 <=? n) && (n <=? 102))%nat
  || ((65 <=? n) && (n <=? 70))%nat.

Fixpoint skip_digits (s : string) : string :=
  match s with
  | String c r => if is_digit c then skip_digits r else s
  | EmptyString => EmptyString
  end.

(** One digit or more. *)
Definition digits1 (s : string) : option string :=
  match s with
  | String c r => if is_digit c then Some (skip_digits r) else None
  | EmptyString => None
  end.

Definition fraction (s : string) : option string :=
  match s with
  | String c r => if Ascii.eqb c "." then digits1 r else Some s
  | EmptyString => Some s
  end.

Definition exponent (s : string) : option string :=
  match s with
  | String c r =>
      if Ascii.eqb c "e" || Ascii.eqb c "E" then
        match r with
        | String g r' =>
            if Ascii.eqb g "+" || Ascii.eqb g "-" then digits1 r'
            else digits1 r
        | EmptyString => None
        end
      else Some s
  | EmptyString => Some s
  end.

Definition bind {A B} (x : option A) (f : A -> option B) : option B :=
  match x with Some a => f a | None => None end.

Definition number (s : string) : option string :=
  let s1 := match s with
            | String c r => if Ascii.eqb c "-" then r else s
            | EmptyString => s
            end in
  match s1 with
  | String c r =>
      if Ascii.eqb c "0" then bind (fraction r) exponent
      else if is_digit c then bind (fraction (skip_digits r)) exponent
      else None
  | EmptyString => None
  end.

Definition is_simple_escape (c : ascii) : bool :=
  Ascii.eqb c dquote || Ascii.eqb c "\" || Ascii.eqb c "/"
  || Ascii.eqb c "b" || Ascii.eqb c "f" || Ascii.eqb c "n"
  || Ascii.eqb c "r" || Ascii.eqb c "t".

(** The rest of a string literal after its opening quote. *)
Fixpoint string_body (s : string) : option string :=
  match s with
  | EmptyString => None
  | String c r =>
      if Ascii.eqb c dquote then Some r
      else if Ascii.eqb c "\" then
        match r with
        | String e r1 =>
            if is_simple_escape e then string_body r1
            else if Ascii.eqb e "u" then
              match r1 with
              | String h1 (String h2 (String h3 (String h4 r2))) =>
                  if is_hex h1 && is_hex h2 && is_hex h3 && is_hex h4
                  then string_body r2 else None
              | _ => None
              end
            else None
        | EmptyString => None
        end
      else if (nat_of_ascii c <? 32)%nat then None
      else string_body r
  end.

Fixpoint literal (word s : string) : option string :=
  match word, s with
  | EmptyString, _ => Some s
  | String a w, String c r => if Ascii.eqb a c then literal w r else None
  | String _ _, EmptyString => None
  end.

(** [value n s]: a JSON value at the head of [s], after white space; the
    result is what follows it. [n] bounds the number of nested calls. *)
Fixpoint value (n : nat) (s : string) {struct n} : option string :=
  match n with
  | O => None
  | S k =>
      match skip_ws s with
      | EmptyString => None
      | String c r =>
          if Ascii.eqb c "{" then
            match skip_ws r with
            | String d r' => if Ascii.eqb d "}" then Some r' else members k r
            | EmptyString => None
            end
          else if Ascii.eqb c "[" then
            match skip_ws r with
            | String d r' => if Ascii.eqb d "]" then Some r' else elements k r
            | EmptyString => None
            end
          else if Ascii.eqb c dquote then string_body r
          else if Ascii.eqb c "t" then literal "rue" r
          else if Ascii.eqb c "f" then literal "alse" r
          else if Ascii.eqb c "n" then literal "ull" r
          else number (String c r)
      end
  end
with members (n : nat) (s : string) {struct n} : option string :=
  match n with
  | O => None
  | S k =>
      match skip_ws s with
      | String q r =>
          if Ascii.eqb q dquote then
            match bind (string_body r) (fun r1 => Some (skip_ws r1)) with
            | Some (String c r2) =>
                if Ascii.eqb c ":" then
                  match bind (value k r2) (fun r3 => Some (skip_ws r3)) with
                  | Some (String d r4) =>
                      if Ascii.eqb d "," then members k r4
                      else if Ascii.eqb d "}" then Some r4
                      else None
                  | _ => None
                  end
                else None
            | _ => None
            end
          else None
      | EmptyString => None
      end
  end
with elements (n : nat) (s : string) {struct n} : option string :=
  match n with
  | O => None
  | S k =>
      match bind (value k s) (fun r => Some (skip_ws r)) with
      | Some (String d r') =>
          if Ascii.eqb d "," then elements k r'
          else if Ascii.eqb d "]" then Some r'
          else None
      | _ => None
      end
  end.

(** [JSON.parse(s)] returns rather than throws. Each nested call above is
    made after a character has been read or is followed by one, so twice the
    length of the text bounds their depth. *)
Definition parses (s : string) : bool :=
  match value (2 * String.length s + 2) s with
  | Some r => negb (JS.truthy (skip_ws r))
  | None => false
  end.

End Json.

(* ================================================================== *)
(** ** BackendClient: the outbound calls and the non-streaming handlers *)

Module Gateway.

Import EndpointRegistry Json.

Inductive method := GET | POST | DELETE.

(** One axios call: [data] is the body it sends, [headers] the headers the
    call configures, [stream] whether [responseType: 'stream'] is asked. *)
Record request := mkRequest {
  meth : method;
  target : string;
  headers : list (string * string);
  data : option json;
  stream : bool
}.

(** What a backend call comes to: the promise resolves with
    [response.data], or rejects with an error of that [message]. *)
Inductive outcome :=
  | Resolved (body : json)
  | Rejected (message : string).

Definition rejected (o : outcome) : bool :=
  match o with Rejected _ => true | Resolved _ => false end.

(** The answer of a non-streaming handler: [res.status(n).json(body)];
    [res.json(body)] has status 200. *)
Record reply := mkReply { status : nat; body : json }.

(** The process: [process.env.OLLAMA_ENDPOINTS] and the variable
    [ollamaEndpoint] ([None] once it has been assigned [undefined]). *)
Record process := mkProcess {
  OLLAMA_ENDPOINTS : option string;
  ollamaEndpoint : option string
}.

Definition initial (env : option string) : process :=
  mkProcess env (Some "http://localhost:11434").

(** Template substitution [`${x}`] of a string or [undefined], and of a
    string or [null]. *)
Definition subst_undefined (x : option string) : string :=
  match x with Some s => s | None => "undefined" end.

Definition subst_null (x : option string) : string :=
  match x with Some s => s | None => "null" end.

(** [`Bearer ${getApiKeyFor(ollamaEndpoint)}`] *)
Definition bearer (p : process) : string :=
  "Bearer " ++ subst_null (getApiKeyFor (OLLAMA_ENDPOINTS p) (ollamaEndpoint p)).

(** The [headers] object every handler writes out. *)
Definition auth_headers (p : process) : list (string * string) :=
  [("Authorization", bearer p); ("Content-Type", "application/json")].

(** [`${ollamaEndpoint}/path`] *)
Definition at_endpoint (p : process) (path : string) : string :=
  subst_undefined (ollamaEndpoint p) ++ path.

Definition failure (message : string) (error : string) : reply :=
  mkReply 500 (JObj [("success", JBool false); ("message", JStr message);
                     ("error", JStr error)]).

(** *** [POST /api/set-endpoint]: [endpoint] is the field of the body,
    [None] when the body has none. *)
Definition set_endpoint (p : process) (endpoint : option string)
    (probe : outcome) : process * list request * reply :=
  let p' := mkProcess (OLLAMA_ENDPOINTS p) endpoint in
  (p',
   [mkRequest GET (subst_undefined endpoint ++ "/api/tags")
              (auth_headers p') None false],
   match probe with
   | Resolved _ =>
       mkReply 200 (JObj [("success", JBool true);
                          ("message", JStr "Endpoint set successfully")])
   | Rejected e => failure "Failed to connect to Ollama endpoint" e
   end).

(** *** [GET /api/ps] *)
Definition ps (p : process) (answer : outcome) : list request * reply :=
  ([mkRequest GET (at_endpoint p "/api/ps") (auth_headers p) None false],
   match answer with
   | Resolved d => mkReply 200 d
   | Rejected e => failure "Failed to fetch running models" e
   end).

(** The value of the header [name] that a call configures, if any. *)
Definition header_of (name : string) (r : request) : option string :=
  match find (fun h => String.eqb (fst h) name) (headers r) with
  | Some h => Some (snd h)
  | None => None
  end.

(** The call [r] goes to [base ++ path] and its configuration carries the
    header [Authorization] with the value [auth]. *)
Definition addressed (base auth path : string) (r : request) : Prop :=
  target r = (base ++ path)%string
  /\ header_of "Authorization" r = Some auth.

(** [xs.map((x, i) => f(i, x))], counting from [i]. *)
Fixpoint mapi_from {A B} (f : nat -> A -> B) (i : nat) (xs : list A)
  : list B :=
  match xs with
  | [] => []
  | x :: rest => f i x :: mapi_from f (S i) rest
  end.

Definition mapi {A B} (f : nat -> A -> B) (xs : list A) : list B :=
  mapi_from f 0 xs.

(** *** [GET /api/models] *)

(** The answer to [GET /api/tags]: [response.data.models] is an array of
    objects, or the call rejects. *)
Inductive listing :=
  | Listing (models : list obj)
  | ListingFailed (message : string).

(** The call [axios.post(url, { name: model.name, headers: {...} })]: its
    second argument is the body, so the [headers] object travels in the body
    and the call configures no header. A [name] that is [undefined] is left
    out of the body. *)
Definition show_request (p : process) (model : obj) : request :=
  mkRequest POST (at_endpoint p "/api/show") []
    (Some (JObj
       ((match lookup "name" model with
         | Some v => [("name", v)]
         | None => []
         end)
        ++ [("headers", JObj [("Authorization", JStr (bearer p));
                              ("Content-Type", JStr "application/json")])])))
    false.

(** The [details] object built from [detailsResponse.data]; [None] when
    reading [.details] of a [null] body throws. *)
Definition details_of (d : json) : option json :=
  match d with
  | JNull => None
  | _ =>
      let det := prop d "details" in
      let text k := or_default (opt_prop det k) (JStr "") in
      Some (JObj [("parent_model", text "parent_model");
                  ("format", text "format");
                  ("family", text "family");
                  ("families", or_default (opt_prop det "families") (JArr []));
                  ("parameter_size", text "parameter_size");
                  ("quantization_level", text "quantization_level")])
  end.

(** The [try] block of the callback throws: the call rejects, or the body is
    [null]. *)
Definition detail_fails (o : outcome) : bool :=
  match o with
  | Rejected _ => true
  | Resolved d => match details_of d with None => true | Some _ => false end
  end.

(** The callback of [response.data.models.map]: [{...model, details}], or
    the model as it is when the [try] block throws. *)
Definition enrich (model : obj) (o : outcome) : obj :=
  match o with
  | Resolved d =>
      match details_of d with
      | Some det => set_field "details" det model
      | None => model
      end
  | Rejected _ => model
  end.

Definition name_of (m : obj) : option string :=
  match lookup "name" m with
  | Some (JStr s) => Some s
  | _ => None
  end.

Definition has_name (m : obj) : bool :=
  match name_of m with Some _ => true | None => false end.

Definition name_text (m : obj) : string :=
  match name_of m with Some s => s | None => EmptyString end.

(** The model carries a [details] field that is an object. *)
Definition carries_details (m : obj) : bool :=
  match lookup "details" m with
  | Some (JObj _) => true
  | _ => false
  end.

(** How many of the detail calls of [n] models fail. *)
Definition failures (show : nat -> outcome) (n : nat) : nat :=
  List.length (filter (fun i => detail_fails (show i)) (seq 0 n)).

Section Sorting.

(** [a.localeCompare(b)], by its sign: the collation of the host. *)
Variable localeCompare : string -> string -> comparison.

(** The comparator [(a, b) => a.name.localeCompare(b.name)] is positive. *)
Definition comes_after (a b : obj) : bool :=
  match localeCompare (name_text a) (name_text b) with
  | Gt => true
  | _ => false
  end.

(** [a] may stand before [b] in a list sorted by name, ascending. *)
Definition in_order (a b : obj) : Prop :=
  localeCompare (name_text a) (name_text b) <> Gt.

Fixpoint insert (x : obj) (l : list obj) : list obj :=
  match l with
  | [] => [x]
  | y :: rest => if comes_after x y then y :: insert x rest else x :: l
  end.

(** [Array.prototype.sort] with that comparator: a stable sort. *)
Fixpoint sort (l : list obj) : list obj :=
  match l with
  | [] => []
  | x :: rest => insert x (sort rest)
  end.

(** [modelsWithDetails.sort(...)]. With fewer than two models the comparator
    is not called. With a model whose [name] is not a string the outcome
    depends on which elements the engine makes the receiver of
    [localeCompare] (a [TypeError] there, a comparison with the text of the
    other value elsewhere): [None]. *)
Definition sortedModels (l : list obj) : option (list obj) :=
  if (List.length l <=? 1)%nat then Some l
  else if forallb has_name l then Some (sort l)
  else None.

(** The handler reads [ollamaEndpoint] where it issues a call; the process
    [p] is the one at those points. [show i] is what the detail call of the
    model at index [i] comes to. *)
Definition get_models (p : process) (tags : listing) (show : nat -> outcome)
  : list request * option reply :=
  let tags_request :=
    mkRequest GET (at_endpoint p "/api/tags") (auth_headers p) None false in
  match tags with
  | ListingFailed e =>
      ([tags_request], Some (failure "Failed to fetch models" e))
  | Listing models =>
      let modelsWithDetails := mapi (fun i m => enrich m (show i)) models in
      (tags_request :: map (show_request p) models,
       match sortedModels modelsWithDetails with
       | Some sorted => Some (mkReply 200 (JArr (map JObj sorted)))
       | None => None
       end)
  end.

End Sorting.

(** *** [DELETE /api/models] *)

Definition delete_request (p : process) (model : string) : request :=
  mkRequest DELETE (at_endpoint p "/api/delete") (auth_headers p)
            (Some (JObj [("name", JStr model)])) false.

(** [failed]: the rejected results, each mapped to the model at its index
    among the rejected results. *)
Definition failed_names (models : list string) (results : list outcome)
  : list (option string) :=
  mapi (fun i _ => nth_error models i) (filter rejected results).

(** [join] writes an [undefined] element as the empty string. *)
Definition join_names (xs : list (option string)) : string :=
  JS.join ", " (map (fun x => match x with Some s => s | None => "" end) xs).

(** [models] is the field of the body, an array of strings, or [None] when
    the body has none; [answer i] is what the delete call at index [i] comes
    to; [type_error] is the message the engine gives the [TypeError] of
    [undefined.map]. *)
Definition delete_models (type_error : string) (p : process)
    (models : option (list string)) (answer : nat -> outcome)
  : list request * reply :=
  match models with
  | None => ([], failure "Failed to process delete request" type_error)
  | Some ms =>
      let results := mapi (fun i _ => answer i) ms in
      let failed := failed_names ms results in
      (map (delete_request p) ms,
       if (0 <? List.length failed)%nat then
         mkReply 500
           (JObj [("success", JBool false);
                  ("message",
                   JStr ("Failed to delete models: " ++ join_names failed))])
       else
         mkReply 200
           (JObj [("success", JBool true);
                  ("message", JStr "Models deleted successfully")]))
  end.

End Gateway.

(* ================================================================== *)
(** ** StreamRelay: [handleModelOperation], [POST /api/pull],
       [POST /api/update-model] *)

Module StreamRelay.

Import Json Gateway.

(** The operations of the handler on the client response [res], in order. *)
Inductive res_op :=
  | SetHeader (name value : string)
  | Write (chunk : string)
  | End.

(** What happens to one relay, in the order of the event loop. The call
    [await axios(...)] resolves or rejects once; the stream of the backend
    emits [data], [end] and [error]; the request of the client emits
    [close]. [Data] carries [chunk.toString()]. *)
Inductive event :=
  | InitResolved
  | InitRejected (message : string)
  | Data (chunk : string)
  | StreamEnd
  | StreamError (message : string)
  | ClientClose.

(** Where the handler is: before [await axios(...)] returns no listener is
    registered; after it resolves the four listeners are; after it rejects
    none ever is. *)
Inductive phase := Awaiting | Listening | Detached.

Record relay := mkRelay {
  where_ : phase;
  hasEnded : bool;
  out : list res_op
}.

Definition is_end (op : res_op) : bool :=
  match op with End => true | _ => false end.

(** How many times a sequence of operations closes the response. *)
Definition closes (ops : list res_op) : nat :=
  List.length (filter is_end ops).

(** The guard: the response has been closed once when [hasEnded] is set and
    not at all before; and nothing sets it before the listeners are
    registered. *)
Definition guarded (r : relay) : Prop :=
  closes (out r) = (if hasEnded r then 1 else 0)
  /\ (where_ r = Awaiting -> hasEnded r = false).

Definition nl : string := String "010"%char "".

(** [JSON.stringify({ status: 'error', error: message }) + '\n'] *)
Definition error_record (message : string) : string :=
  dq "{'status':'error','error':" ++ quote message ++ "}" ++ nl.

Definition emit (op : res_op) (r : relay) : relay :=
  mkRelay (where_ r) (hasEnded r) (out r ++ [op]).

(** [endResponse(error)]; [None] is the call without argument. *)
Definition endResponse (error : option string) (r : relay) : relay :=
  if hasEnded r then r
  else
    let r1 := mkRelay (where_ r) true (out r) in
    let r2 := match error with
              | Some message => emit (Write (error_record message)) r1
              | None => r1
              end in
    emit End r2.

Section Relay.

(** [JSON.parse(line)] returns rather than throws. *)
Variable JSON_parse_ok : string -> bool.

(** The callback of [lines.forEach]. *)
Definition on_line (r : relay) (line : string) : relay :=
  if JS.truthy (JS.trim line) then
    if JSON_parse_ok line then emit (Write (line ++ nl)) r
    else r
  else r.

(** The listener of [data]. Nothing in its outer [try] block throws outside
    the inner one, so its [catch] is not reached. *)
Definition on_data (chunk : string) (r : relay) : relay :=
  fold_left on_line (JS.split "010" chunk) r.

Definition enter (ph : phase) (r : relay) : relay :=
  mkRelay ph (hasEnded r) (out r).

(** One event. An event that no registered listener waits for is lost: a
    [close] of the client while [axios(...)] is awaited, and whatever
    follows a rejected call. *)
Definition step (r : relay) (e : event) : relay :=
  match where_ r, e with
  | Awaiting, InitResolved => enter Listening r
  | Awaiting, InitRejected message =>
      enter Detached (endResponse (Some message) r)
  | Listening, Data chunk => on_data chunk r
  | Listening, StreamEnd => endResponse None r
  | Listening, StreamError message => endResponse (Some message) r
  | Listening, ClientClose => endResponse None r
  | _, _ => r
  end.

(** The relay when [handleModelOperation] reaches [await axios(...)]. *)
Definition started : relay :=
  mkRelay Awaiting false
    [SetHeader "Content-Type" "application/json";
     SetHeader "Transfer-Encoding" "chunked"].

Definition run (events : list event) : relay := fold_left step events started.

(** [handleModelOperation(req, res, operation)]: the call it issues and what
    it does to [res] over the events of the relay. *)
Definition handleModelOperation (p : process) (operation : json)
    (events : list event) : list request * list res_op :=
  ([mkRequest POST (at_endpoint p "/api/pull") (auth_headers p)
              (Some operation) true],
   out (run events)).

(** What a streaming route does: an answer at once, or a relay. *)
Inductive served :=
  | Answered (r : reply)
  | Relayed (calls : list request) (ops : list res_op).

(** The backend calls made for a request to a streaming route. *)
Definition calls_of (s : served) : list request :=
  match s with
  | Answered _ => []
  | Relayed calls _ => calls
  end.

Definition name_required : reply :=
  mkReply 400 (JObj [("success", JBool false);
                     ("message", JStr "Model name is required")]).

(** [!x] for a field that is a string or absent. *)
Definition missing (x : option string) : bool :=
  match x with
  | Some s => negb (JS.truthy s)
  | None => true
  end.

(** The object literal [{ model: name }] as it is serialised: a field that
    is [undefined] is left out. *)
Definition operation_of (name : option string) : json :=
  JObj (match name with Some s => [("model", JStr s)] | None => [] end).

Definition relay_of (p : process) (operation : json) (events : list event)
  : served :=
  Relayed (fst (handleModelOperation p operation events))
          (snd (handleModelOperation p operation events)).

(** [POST /api/pull] with the field [model] of the body. *)
Definition pull (p : process) (model : option string) (events : list event)
  : served :=
  if missing model then Answered name_required
  else relay_of p (operation_of model) events.

(** [POST /api/update-model] with the field [modelName] of the body. *)
Definition update_model (p : process) (modelName : option string)
    (events : list event) : served :=
  if missing modelName then Answered name_required
  else relay_of p (operation_of modelName) events.

End Relay.

End StreamRelay.


(* ================================================================== *)
(** ** Inputs that the statements below are evaluated at *)

Module Samples.

Import Json Gateway StreamRelay.

(** Two configured endpoints, the second with a credential. *)
Definition two_endpoints : option string :=
  Some "http://localhost:11434,http://gpu:11434_secret".

(** An endpoint configured three times over, with two credentials. *)
Definition repeated_endpoint : option string :=
  Some "http://a:1_k1,http://b:2,http://a:1_k2".

(** A url with an underscore in it, and an entry that begins with one. *)
Definition underscored : option string :=
  Some "http://my_host:11434_secret, _k".

Definition llama : obj := [("name", JStr "llama3"); ("size", JNum 4661224676)].

(** The listing of the scenario: [mistral] before [alpaca]. *)
Definition mistral_alpaca : list obj :=
  [[("name", JStr "mistral"); ("size", JNum 4113301824)];
   [("name", JStr "alpaca")]].

(** A backend that answers every call with an empty object. *)
Definition always_ok (i : nat) : outcome := Resolved (JObj []).

(** A backend that fails the call at index 1 and no other. *)
Definition second_fails (i : nat) : outcome :=
  if Nat.eqb i 1 then Rejected "Request failed with status code 404"
  else Resolved (JObj []).

(** The message V8 gives to the [TypeError] of [undefined.map(...)]. *)
Definition undefined_map : string :=
  "Cannot read properties of undefined (reading 'map')".

Definition downloading : string := dq "{'status':'downloading'}".

(** The two raw chunks of the streaming scenario: a record and the head of
    a second one, then its tail. *)
Definition first_chunk : string :=
  (downloading ++ nl ++ dq "{'status':'verify")%string.

Definition second_chunk : string := (dq "ing'}" ++ nl)%string.

Definition refused : string := "connect ECONNREFUSED 127.0.0.1:11434".

End Samples.

(* ================================================================== *)
(** ** The users of the basic authentication: [parseHashEnv] and the
       [authorizer] *)

Module BasicAuth.

(** The object [acc] of the [reduce]: its own properties, in order. *)
Definition users := list (string * string).

(** An own property of the object. *)
Fixpoint own (k : string) (acc : users) : option string :=
  match acc with
  | [] => None
  | (k', v) :: rest => if String.eqb k' k then Some v else own k rest
  end.

Fixpoint assign_own (k v : string) (acc : users) : users :=
  match acc with
  | [] => [(k, v)]
  | (k', v') :: rest =>
      if String.eqb k' k then (k', v) :: rest
      else (k', v') :: assign_own k v rest
  end.

(** [acc[k] = v] for a string [v]: the key [__proto__] reaches the setter of
    the prototype, which ignores a value that is not an object; any other
    key becomes or stays an own property. *)
Definition assign (k v : string) (acc : users) : users :=
  if String.eqb k "__proto__" then acc else assign_own k v acc.

(** The callback of the [reduce]: [idx > 0] is [Some (S i)]. *)
Definition add_pair (acc : users) (pair : string) : users :=
  match JS.indexOf ":" pair with
  | Some (S i) =>
      assign (JS.trim (JS.slice_to (S i) pair))
             (JS.trim (JS.slice_from (S i + 1) pair)) acc
  | _ => acc
  end.

(** [value.split(',').map(s => s.trim()).filter(Boolean)] where [value] is
    [process.env.BASIC_AUTH_HASHES || '']. *)
Definition pairs (env : option string) : list string :=
  filter JS.truthy
    (map JS.trim (JS.split "," (match env with Some s => s | None => "" end))).

Definition parseHashEnv (env : option string) : users :=
  fold_left add_pair (pairs env) [].

Section Authorizer.

(** [bcrypt.compare(password, hash)] resolves to [true]; a rejection comes
    to the same as [false], through the [catch]. *)
Variable bcrypt_compare : string -> string -> bool.

(** What the [authorizer] passes to [cb]. [userHashes[username]] is the own
    property when there is one; when there is none it is [undefined], or a
    member of [Object.prototype], which is no string: [bcrypt.compare]
    rejects it and the [catch] answers [false]. *)
Definition authorizer (userHashes : users) (username password : string)
  : bool :=
  match own username userHashes with
  | Some hash => if JS.truthy hash then bcrypt_compare password hash else false
  | None => false
  end.

End Authorizer.

End BasicAuth.

(* ================================================================== *)
(** ** Shapes of texts and of responses that the statements speak of *)

Module Shapes.

Import Json Gateway StreamRelay.

(** Every character of [s] satisfies [f]. *)
Fixpoint all_chars (f : ascii -> bool) (s : string) : bool :=
  match s with
  | EmptyString => true
  | String c r => f c && all_chars f r
  end.

Definition blank_or_comma (c : ascii) : bool :=
  JS.is_ws c || Ascii.eqb c ",".

(** The text is as [trim] leaves it. *)
Definition trimmed (s : string) : Prop := JS.trim s = s.

(** What the listener of [data] writes for one chunk. *)
Definition forwarded (parse : string -> bool) (chunk : string)
  : list res_op :=
  map (fun line => Write (line ++ nl))
      (filter (fun line => JS.truthy (JS.trim line) && parse line)
              (JS.split "010" chunk)).

Definition is_header (op : res_op) : bool :=
  match op with SetHeader _ _ => true | _ => false end.

(** An operation of the body of the response: the close, the error record,
    or a line that parses, with its newline. *)
Definition record_or_close (parse : string -> bool) (op : res_op) : Prop :=
  match op with
  | SetHeader _ _ => False
  | End => True
  | Write text =>
      (exists message, text = error_record message)
      \/ (exists line, text = (line ++ nl)%string /\ parse line = true)
  end.

(** A user name as [parseHashEnv] stores it. *)
Definition user_name_ok (k : string) : Prop :=
  trimmed k /\ k <> EmptyString /\ k <> "__proto__"
  /\ JS.lacks ":" k = true /\ JS.lacks "," k = true.

(** A hash as [parseHashEnv] stores it. *)
Definition hash_ok (v : string) : Prop :=
  trimmed v /\ JS.lacks "," v = true.

(** No event of the list is a chunk of the backend. *)
Definition no_data (events : list event) : bool :=
  forallb (fun e => match e with Data _ => false | _ => true end) events.

(** No event of the list is the outcome of the initiating call. *)
Definition no_outcome (events : list event) : bool :=
  forallb (fun e => match e with
                    | InitResolved | InitRejected _ => false
                    | _ => true
                    end) events.

End Shapes.

(* ================================================================== *)
(** ** Further inputs that statements are evaluated at *)

Module Scenarios.

Import Json Gateway StreamRelay.

Definition only_blanks : string := " , ,,  ".

Definition hashes : option string :=
  Some "alice:$2a$10$abc , bob:$2a$10$def,alice:$2a$10$xyz,carol:,:nobody".

(** A comparison of hashes that accepts one password for one hash. *)
Definition accepts_hunter2 (password hash : string) : bool :=
  String.eqb password "hunter2" && String.eqb hash "$2a$10$xyz".

Definition verifying : string := dq "{'status':'verifying'}".

(** A listing with two models of one name. *)
Definition twins : list obj :=
  [[("name", JStr "zephyr")];
   [("name", JStr "llama3"); ("size", JNum 1)];
   [("name", JStr "llama3"); ("size", JNum 2)]].

(** A listing that is in order already. *)
Definition in_order_already : list obj :=
  [[("name", JStr "alpaca")]; [("name", JStr "mistral"); ("size", JNum 7)]].

(** The models that have the name [n]. *)
Definition named (n : string) (l : list obj) : list obj :=
  filter (fun m => String.eqb (name_text m) n) l.

End Scenarios.

(* ================================================================== *)
(** * Properties *)

Import EndpointRegistry Json Gateway StreamRelay.

(** ** The JSON recogniser on some texts *)

Example parses_accepts :
  forallb (fun t => parses (dq t))
    ["{'status':'downloading'}"; "{}"; "[]"; " [1, 2.5e-3, -0] ";
     "{'a':{'b':[true,false,null,'x\n\u00e9']}}"; "'text'"; "12"]
  = true.
Proof. reflexivity. Qed.

Example parses_rejects :
  existsb (fun t => parses (dq t))
    ["{'status':'verify"; "ing'}"; ""; "  "; "{'a':1,}"; "[1,]"; "01"; "1.";
     "{a:1}"; "'a\x'"; "{'a':1} {'b':2}"; "tru"; "nul"]
  = false.
Proof. reflexivity. Qed.

(** ** The endpoint registry *)

Lemma indexOf_first (c : ascii) (pre post : string) :
  JS.lacks c pre = true ->
  JS.indexOf c (pre ++ String c post) = Some (String.length pre).
Proof.
  induction pre as [|d pre IH]; simpl; intros H.
  - now rewrite Ascii.eqb_refl.
  - apply andb_true_iff in H as [Hd Hpre].
    apply negb_true_iff in Hd. rewrite Hd, (IH Hpre). reflexivity.
Qed.

Lemma slice_to_prefix (pre rest : string) :
  JS.slice_to (String.length pre) (pre ++ rest) = pre.
Proof.
  induction pre as [|d pre IH]; simpl.
  - now destruct rest.
  - now rewrite IH.
Qed.

Lemma slice_from_suffix (c : ascii) (pre post : string) :
  JS.slice_from (String.length pre + 1) (pre ++ String c post) = post.
Proof.
  induction pre as [|d pre IH]; simpl; auto.
Qed.


Lemma key_or_null_parsed (item : string) :
  key_or_null (apiKey (parse_item item)) = apiKey (parse_item item).
Proof.
  unfold parse_item. destruct (JS.indexOf "_" item); simpl; auto.
  unfold JS.or_null.
  destruct (JS.truthy (JS.trim (JS.slice_from (n + 1) item))) eqn:E; simpl; auto.
  unfold JS.or_null. now rewrite E.
Qed.

Lemma key_or_null_configured (env : option string) (c : EndpointConfig) :
  In c (getEndpointConfigs env) -> key_or_null (apiKey c) = apiKey c.
Proof.
  unfold getEndpointConfigs. intros H.
  apply in_map_iff in H as (item & <- & _). apply key_or_null_parsed.
Qed.

Lemma find_absent {A} (f : A -> bool) (l : list A) :
  (forall x, In x l -> f x = false) -> find f l = None.
Proof.
  induction l as [|a l IH]; simpl; intros H; auto.
  rewrite (H a (or_introl eq_refl)). apply IH. intros x Hx. apply H. now right.
Qed.

Lemma find_earliest {A} (f : A -> bool) (before rest : list A) (hit : A) :
  (forall x, In x before -> f x = false) -> f hit = true ->
  find f (before ++ hit :: rest) = Some hit.
Proof.
  induction before as [|a l IH]; simpl; intros H Hhit.
  - now rewrite Hhit.
  - rewrite (H a (or_introl eq_refl)). apply IH; auto.
Qed.



(** C8. [getApiKeyFor] gives [null] for a url that no parsed entry has, and
    for a url that several entries have, the credential of the earliest of
    them. *)
Theorem credential_of_first_match :
  forall (env : option string) (u : string),
    ((forall c, In c (getEndpointConfigs env) -> url c <> u) ->
     getApiKeyFor env (Some u) = None)
    /\ (forall before hit rest,
          getEndpointConfigs env = before ++ hit :: rest ->
          (forall c, In c before -> url c <> u) ->
          url hit = u ->
          getApiKeyFor env (Some u) = apiKey hit).
Proof.
  intros env u. unfold getApiKeyFor. split.
  - intros H. rewrite find_absent; auto.
    intros c Hc. simpl. apply String.eqb_neq. now apply H.
  - intros before hit rest E Hbefore Hhit.
    rewrite E, find_earliest.
    + apply (key_or_null_configured env). rewrite E.
      apply in_or_app. right. now left.
    + intros c Hc. simpl. apply String.eqb_neq. now apply Hbefore.
    + simpl. now apply String.eqb_eq.
Qed.

Lemma credential_of_first_match_witness :
  getApiKeyFor Samples.repeated_endpoint (Some "http://c:3") = None
  /\ getApiKeyFor Samples.repeated_endpoint (Some "http://a:1") = Some "k1".
Proof.
  destruct (credential_of_first_match Samples.repeated_endpoint "http://c:3")
    as [Habsent _].
  destruct (credential_of_first_match Samples.repeated_endpoint "http://a:1")
    as [_ Hfirst].
  split.
  - apply Habsent. intros c Hc.
    simpl in Hc.
    destruct Hc as [<-|[<-|[<-|[]]]]; discriminate.
  - apply (Hfirst [] (mkConfig "http://a:1" (Some "k1"))
                  [mkConfig "http://b:2" None;
                   mkConfig "http://a:1" (Some "k2")]).
    + reflexivity.
    + intros c [].
    + reflexivity.
Defined.

(* ------------------------------------------------------------------ *)
(** ** The active target and the bearer value of the outbound calls *)

(** Setting the target overwrites the variable, whatever the probe says. *)
Lemma set_endpoint_overwrites (p : process) (u : option string)
    (probe : outcome) :
  ollamaEndpoint (fst (fst (set_endpoint p u probe))) = u
  /\ OLLAMA_ENDPOINTS (fst (fst (set_endpoint p u probe))) = OLLAMA_ENDPOINTS p.
Proof. split; reflexivity. Qed.

(** The calls that pass [headers] in their configuration are addressed to
    the active target and carry its resolved credential: the listing, the
    running-models call, each delete call and the pull call. *)
Lemma configured_calls_use_active_target
    (cmp : string -> string -> comparison) (parse : string -> bool)
    (te : string) (p : process) (u : string) :
  ollamaEndpoint p = Some u ->
  let auth :=
    ("Bearer "
     ++ subst_null (getApiKeyFor (OLLAMA_ENDPOINTS p) (Some u)))%string in
  (forall answer, Forall (addressed u auth "/api/ps") (fst (ps p answer)))
  /\ (forall tags show,
        exists r rest,
          fst (get_models cmp p tags show) = r :: rest
          /\ addressed u auth "/api/tags" r)
  /\ (forall ms answer,
        Forall (addressed u auth "/api/delete")
               (fst (delete_models te p (Some ms) answer)))
  /\ (forall operation events,
        Forall (addressed u auth "/api/pull")
               (fst (handleModelOperation parse p operation events))).
Proof.
  intros Hu auth.
  assert (Hb : bearer p = auth) by (unfold bearer; now rewrite Hu).
  assert (Ha : forall path, at_endpoint p path = (u ++ path)%string)
    by (intros; unfold at_endpoint; now rewrite Hu).
  repeat split.
  - intros answer. simpl. constructor; [|constructor].
    split; simpl; [apply Ha | unfold header_of; simpl; now rewrite Hb].
  - intros tags show.
    destruct tags; simpl; eexists; eexists; (split; [reflexivity|]);
      (split; simpl; [apply Ha | unfold header_of; simpl; now rewrite Hb]).
  - intros ms answer. simpl. apply Forall_forall. intros r Hr.
    apply in_map_iff in Hr as (m & <- & _).
    split; simpl; [apply Ha | unfold header_of; simpl; now rewrite Hb].
  - intros operation events. simpl. constructor; [|constructor].
    split; simpl; [apply Ha | unfold header_of; simpl; now rewrite Hb].
Qed.

(** Without a configured credential the bearer value is the text [null]. *)
Lemma bearer_without_credential (p : process) :
  getApiKeyFor (OLLAMA_ENDPOINTS p) (ollamaEndpoint p) = None ->
  bearer p = "Bearer null".
Proof. unfold bearer. now intros ->. Qed.

(** The detail call configures no header at all, whatever the process. *)
Lemma show_call_configures_no_header (p : process) (m : obj) :
  header_of "Authorization" (show_request p m) = None
  /\ exists fields,
       data (show_request p m) = Some (JObj fields)
       /\ In ("headers", JObj [("Authorization", JStr (bearer p));
                               ("Content-Type", JStr "application/json")])
             fields.
Proof.
  split; [reflexivity|].
  unfold show_request; simpl.
  destruct (lookup "name" m); simpl; eexists; (split; [reflexivity|]);
    simpl; auto.
Qed.

(** C3. Evaluated where it fails: with the target set to
    [http://gpu:11434], whose credential is [secret], the listing of one
    model issues the call to [/api/tags] with [Bearer secret] and the call
    to [/api/show] at the same base address with no [Authorization] header:
    the [headers] object of that call sits in its body. *)
Theorem show_call_after_set_endpoint :
  ollamaEndpoint
    (fst (fst (set_endpoint (initial Samples.two_endpoints)
                            (Some "http://gpu:11434") (Resolved JNull))))
  = Some "http://gpu:11434"
  /\ map (fun r => (target r, header_of "Authorization" r))
         (fst (get_models String.compare
                 (fst (fst (set_endpoint (initial Samples.two_endpoints)
                              (Some "http://gpu:11434") (Resolved JNull))))
                 (Listing [Samples.llama]) Samples.always_ok))
     = [("http://gpu:11434/api/tags", Some "Bearer secret");
        ("http://gpu:11434/api/show", None)]
  /\ map data
         (fst (get_models String.compare
                 (fst (fst (set_endpoint (initial Samples.two_endpoints)
                              (Some "http://gpu:11434") (Resolved JNull))))
                 (Listing [Samples.llama]) Samples.always_ok))
     = [None;
        Some (JObj [("name", JStr "llama3");
                    ("headers",
                     JObj [("Authorization", JStr "Bearer secret");
                           ("Content-Type", JStr "application/json")])])].
Proof. repeat split. Qed.

(** C6. Evaluated where it fails: with no credential configured for the
    active target, the call to [/api/tags] carries [Bearer null] and the
    call to [/api/show] carries no [Authorization] header. *)
Theorem show_call_without_credential :
  getApiKeyFor None (ollamaEndpoint (initial None)) = None
  /\ map (fun r => (target r, header_of "Authorization" r))
         (fst (get_models String.compare (initial None)
                 (Listing [Samples.llama]) Samples.always_ok))
     = [("http://localhost:11434/api/tags", Some "Bearer null");
        ("http://localhost:11434/api/show", None)].
Proof. repeat split. Qed.

(* ------------------------------------------------------------------ *)
(** ** The batch delete *)

Lemma mapi_from_length {A B} (f : nat -> A -> B) (i : nat) (xs : list A) :
  List.length (mapi_from f i xs) = List.length xs.
Proof.
  revert i. induction xs as [|x xs IH]; simpl; intros i; auto.
Qed.

Lemma mapi_from_const {A B} (g : nat -> B) (i : nat) (xs : list A) :
  mapi_from (fun j _ => g j) i xs = map g (seq i (List.length xs)).
Proof.
  revert i. induction xs as [|x xs IH]; simpl; intros i; auto.
  now rewrite IH.
Qed.

(** A delete call is issued for every model of the list, in order, whatever
    the other calls come to. *)
Lemma delete_attempts_every_model (te : string) (p : process)
    (ms : list string) (answer : nat -> outcome) :
  fst (delete_models te p (Some ms) answer) = map (delete_request p) ms.
Proof. reflexivity. Qed.

(** The answer is 200 exactly when no call is rejected. *)
Lemma delete_succeeds_iff_none_rejected (te : string) (p : process)
    (ms : list string) (answer : nat -> outcome) :
  (status (snd (delete_models te p (Some ms) answer)) = 200
   <-> forall i, i < List.length ms -> rejected (answer i) = false)
  /\ (status (snd (delete_models te p (Some ms) answer)) = 200
      \/ status (snd (delete_models te p (Some ms) answer)) = 500).
Proof.
  unfold delete_models, failed_names, mapi.
  rewrite mapi_from_length, mapi_from_const.
  set (rs := map answer (seq 0 (List.length ms))).
  destruct (filter rejected rs) as [|r l] eqn:E; simpl.
  - split; [|now left]. split; [intros _|reflexivity].
    intros i Hi.
    destruct (rejected (answer i)) eqn:Er; auto.
    assert (Hin : In (answer i) (filter rejected rs)).
    { apply filter_In. split; auto. unfold rs. apply in_map, in_seq. lia. }
    rewrite E in Hin. destruct Hin.
  - split; [|now right]. split; [discriminate|].
    intros H. exfalso.
    assert (Hin : In r (filter rejected rs)) by (rewrite E; now left).
    apply filter_In in Hin as [Hin Hr]. unfold rs in Hin.
    apply in_map_iff in Hin as (i & <- & Hi). apply in_seq in Hi.
    rewrite H in Hr by lia. discriminate.
Qed.

Lemma nth_error_over_prefix {A} (ms : list A) (k : nat) :
  k <= List.length ms ->
  map (fun j => nth_error ms j) (seq 0 k) = map Some (firstn k ms).
Proof.
  revert k. induction ms as [|m ms IH]; intros k Hk; simpl in Hk.
  - assert (k = 0) by lia. subst. reflexivity.
  - destruct k as [|k]; [reflexivity|].
    simpl. f_equal.
    rewrite <- seq_shift, map_map. simpl. apply IH. lia.
Qed.

(** The names in the message are the first models of the list, as many as
    calls were rejected: the rejected results are numbered anew before the
    model of each is looked up. *)
Lemma failed_names_are_a_prefix (ms : list string) (results : list outcome) :
  List.length results = List.length ms ->
  failed_names ms results
  = map Some (firstn (List.length (filter rejected results)) ms).
Proof.
  intros Hlen. unfold failed_names, mapi.
  rewrite mapi_from_const. apply nth_error_over_prefix.
  rewrite <- Hlen. apply filter_length_le.
Qed.

(** C2. Evaluated where it fails: for the models [a], [b], [c] of which only
    the deletion of [b] fails, the three delete calls are issued and the
    answer has status 500, and its message names [a]. *)
Theorem delete_names_first_model_for_second_failure :
  map data (fst (delete_models Samples.undefined_map (initial None)
                   (Some ["a"; "b"; "c"]) Samples.second_fails))
  = [Some (JObj [("name", JStr "a")]);
     Some (JObj [("name", JStr "b")]);
     Some (JObj [("name", JStr "c")])]
  /\ snd (delete_models Samples.undefined_map (initial None)
            (Some ["a"; "b"; "c"]) Samples.second_fails)
     = mkReply 500
         (JObj [("success", JBool false);
                ("message", JStr "Failed to delete models: a")]).
Proof. split; reflexivity. Qed.

(* ------------------------------------------------------------------ *)
(** ** A required field that the body lacks *)

(** C9, as stated, fails for [DELETE /api/models]: without [models] in the
    body the handler makes no backend call and answers 500, not 400. *)
Lemma delete_without_models_answers_500 :
  fst (delete_models Samples.undefined_map (initial None) None
         Samples.always_ok) = []
  /\ status (snd (delete_models Samples.undefined_map (initial None) None
                    Samples.always_ok)) = 500
  /\ status (snd (delete_models Samples.undefined_map (initial None) None
                    Samples.always_ok)) <> 400.
Proof. repeat split. discriminate. Qed.

(** C9, amended. Without [model] in its body [POST /api/pull] answers 400,
    and so does [POST /api/update-model] without [modelName], neither making
    a backend call; [DELETE /api/models] without [models] makes no backend
    call either and answers 500 with the message
    [Failed to process delete request]. *)
Theorem missing_field_is_answered_without_backend_call :
  forall (parse : string -> bool) (te : string) (p : process)
         (events : list event) (answer : nat -> outcome),
    pull parse p None events = Answered name_required
    /\ update_model parse p None events = Answered name_required
    /\ calls_of (pull parse p None events) = []
    /\ calls_of (update_model parse p None events) = []
    /\ status name_required = 400
    /\ delete_models te p None answer
       = ([], failure "Failed to process delete request" te)
    /\ status (snd (delete_models te p None answer)) = 500.
Proof. intros. repeat split. Qed.

(* ------------------------------------------------------------------ *)
(** ** The model listing *)

Lemma lookup_set_field_same (k : string) (v : json) (o : obj) :
  lookup k (set_field k v o) = Some v.
Proof.
  induction o as [|[k' v'] o IH]; simpl.
  - now rewrite String.eqb_refl.
  - destruct (String.eqb k' k) eqn:E; simpl; now rewrite E.
Qed.

Lemma lookup_set_field_other (k k' : string) (v : json) (o : obj) :
  k <> k' -> lookup k' (set_field k v o) = lookup k' o.
Proof.
  intros Hk. induction o as [|[k0 v0] o IH]; simpl.
  - apply String.eqb_neq in Hk. now rewrite Hk.
  - destruct (String.eqb k0 k) eqn:E; simpl.
    + apply String.eqb_eq in E. subst k0.
      apply String.eqb_neq in Hk. now rewrite Hk.
    + now rewrite IH.
Qed.

(** A detail call that succeeds puts an object of six fields under
    [details] and leaves every other field as it was. *)
Lemma enrich_adds_details (m : obj) (o : outcome) :
  detail_fails o = false ->
  exists det,
    lookup "details" (enrich m o) = Some (JObj det)
    /\ map fst det = ["parent_model"; "format"; "family"; "families";
                      "parameter_size"; "quantization_level"]
    /\ forall k, k <> "details" -> lookup k (enrich m o) = lookup k m.
Proof.
  destruct o as [d|e]; simpl; [|discriminate].
  destruct d; simpl; try discriminate; intros _; eexists;
    (split; [apply lookup_set_field_same|]);
    (split; [reflexivity|]);
    intros k Hk; apply lookup_set_field_other; congruence.
Qed.

(** A detail call that fails leaves the model as it was. *)
Lemma enrich_keeps_model (m : obj) (o : outcome) :
  detail_fails o = true -> enrich m o = m.
Proof.
  destruct o as [d|e]; simpl; auto.
  destruct (details_of d); auto. discriminate.
Qed.

Lemma enrich_keeps_name (m : obj) (o : outcome) :
  name_of (enrich m o) = name_of m.
Proof.
  destruct (detail_fails o) eqn:E.
  - now rewrite enrich_keeps_model.
  - destruct (enrich_adds_details m o E) as (det & _ & _ & H).
    unfold name_of. rewrite H; [reflexivity|discriminate].
Qed.

Lemma enrich_carries_details (m : obj) (o : outcome) :
  detail_fails o = false -> carries_details (enrich m o) = true.
Proof.
  intros E. destruct (enrich_adds_details m o E) as (det & H & _).
  unfold carries_details. now rewrite H.
Qed.

Lemma mapi_from_nth_error {A B} (f : nat -> A -> B) (xs : list A) :
  forall i j x,
    nth_error xs j = Some x ->
    nth_error (mapi_from f i xs) j = Some (f (i + j) x).
Proof.
  induction xs as [|a xs IH]; intros i [|j] x; simpl; try discriminate.
  - intros [= ->]. now rewrite Nat.add_0_r.
  - intros H. rewrite (IH (S i) j x H). f_equal. f_equal. lia.
Qed.

Lemma mapi_from_has_name (show : nat -> outcome) (ms : list obj) :
  forall i,
    forallb has_name (mapi_from (fun j m => enrich m (show j)) i ms)
    = forallb has_name ms.
Proof.
  induction ms as [|m ms IH]; intros i; simpl; auto.
  unfold has_name at 1 3. rewrite enrich_keeps_name. now rewrite IH.
Qed.

Lemma filter_length_perm {A} (f : A -> bool) (l l' : list A) :
  Permutation l l' ->
  List.length (filter f l) = List.length (filter f l').
Proof.
  induction 1; simpl; auto.
  - destruct (f x); simpl; auto.
  - destruct (f x), (f y); simpl; auto.
  - congruence.
Qed.

(** Counting the models with a [details] object among the enriched ones. *)
Lemma enriched_count (show : nat -> outcome) (ms : list obj) :
  forall i,
    let enriched := mapi_from (fun j m => enrich m (show j)) i ms in
    let failing :=
      List.length (filter (fun j => detail_fails (show j))
                          (seq i (List.length ms))) in
    List.length ms <= List.length (filter carries_details enriched) + failing
    /\ ((forall m, In m ms -> lookup "details" m = None) ->
        List.length (filter carries_details enriched) + failing
        = List.length ms).
Proof.
  induction ms as [|m ms IH]; intros i; simpl.
  - split; auto.
  - destruct (IH (S i)) as [Hle Heq].
    destruct (detail_fails (show i)) eqn:E; simpl.
    + rewrite (enrich_keeps_model m _ E). split.
      * destruct (carries_details m); simpl; lia.
      * intros Hnone.
        assert (Hm : carries_details m = false).
        { unfold carries_details. now rewrite (Hnone m (or_introl eq_refl)). }
        rewrite Hm. specialize (Heq (fun x Hx => Hnone x (or_intror Hx))).
        lia.
    + rewrite (enrich_carries_details m _ E). simpl. split; [lia|].
      intros Hnone. specialize (Heq (fun x Hx => Hnone x (or_intror Hx))).
      lia.
Qed.

Section ListingFacts.

Variable localeCompare : string -> string -> comparison.

(** The collation is an order on names: of two names one does not come
    after the other, and not coming after is transitive. *)
Hypothesis localeCompare_total :
  forall a b, localeCompare a b = Gt -> localeCompare b a <> Gt.
Hypothesis localeCompare_trans :
  forall a b c,
    localeCompare a b <> Gt -> localeCompare b c <> Gt ->
    localeCompare a c <> Gt.

Lemma insert_perm (x : obj) (l : list obj) :
  Permutation (insert localeCompare x l) (x :: l).
Proof.
  induction l as [|y l IH]; simpl; auto.
  destruct (comes_after localeCompare x y); auto.
  rewrite IH. apply perm_swap.
Qed.

Lemma sort_perm (l : list obj) : Permutation (sort localeCompare l) l.
Proof.
  induction l as [|x l IH]; simpl; auto.
  rewrite insert_perm. now constructor.
Qed.

Lemma insert_sorted (x : obj) (l : list obj) :
  StronglySorted (in_order localeCompare) l ->
  StronglySorted (in_order localeCompare) (insert localeCompare x l).
Proof.
  induction 1 as [|y l Hl IH Hy]; simpl.
  - repeat constructor.
  - unfold comes_after.
    destruct (localeCompare (name_text x) (name_text y)) eqn:E.
    + constructor; [now constructor|].
      constructor; [unfold in_order; congruence|].
      eapply Forall_impl; [|exact Hy]. intros z Hz.
      apply (localeCompare_trans _ (name_text y)); auto. congruence.
    + constructor; [now constructor|].
      constructor; [unfold in_order; congruence|].
      eapply Forall_impl; [|exact Hy]. intros z Hz.
      apply (localeCompare_trans _ (name_text y)); auto. congruence.
    + constructor; auto.
      eapply Permutation_Forall; [symmetry; apply insert_perm|].
      constructor; auto. now apply localeCompare_total.
Qed.

Lemma sort_sorted (l : list obj) :
  StronglySorted (in_order localeCompare) (sort localeCompare l).
Proof.
  induction l as [|x l IH]; simpl; [constructor|]. now apply insert_sorted.
Qed.

Lemma short_list_sorted (l : list obj) :
  List.length l <= 1 -> StronglySorted (in_order localeCompare) l.
Proof.
  destruct l as [|a [|b l]]; simpl; intros H; try lia; repeat constructor.
Qed.

Lemma sortedModels_sorts (l : list obj) :
  List.length l <= 1 \/ forallb has_name l = true ->
  exists sorted,
    sortedModels localeCompare l = Some sorted
    /\ Permutation sorted l
    /\ StronglySorted (in_order localeCompare) sorted.
Proof.
  intros H. unfold sortedModels.
  destruct (List.length l <=? 1)%nat eqn:E.
  - exists l. apply Nat.leb_le in E.
    repeat split; auto using short_list_sorted.
  - apply Nat.leb_gt in E. destruct H as [H|H]; [lia|].
    rewrite H. exists (sort localeCompare l).
    repeat split; auto using sort_perm, sort_sorted.
Qed.

(** C7. For a listing of N models each with a name (or of at most one
    model), of which the detail calls fail for K (the call is rejected, or
    its answer is [null], on which the callback throws as well), the handler
    answers 200 with N models: the models of the listing, each with a [details] object
    of six fields put in when its detail call succeeded and unchanged when
    it failed, in ascending order of name under the collation. At least N-K
    of them carry a [details] object, and exactly N-K when no model of the
    listing had that field already. No failed detail call fails the
    listing. *)
Theorem listing_returns_every_model_sorted :
  forall (p : process) (ms : list obj) (show : nat -> outcome),
    List.length ms <= 1 \/ forallb has_name ms = true ->
    exists sorted,
      snd (get_models localeCompare p (Listing ms) show)
      = Some (mkReply 200 (JArr (map JObj sorted)))
      /\ List.length sorted = List.length ms
      /\ Permutation sorted (mapi (fun i m => enrich m (show i)) ms)
      /\ StronglySorted (in_order localeCompare) sorted
      /\ (forall i m,
            nth_error ms i = Some m ->
            nth_error (mapi (fun i m => enrich m (show i)) ms) i
            = Some (enrich m (show i))
            /\ (detail_fails (show i) = true -> enrich m (show i) = m)
            /\ (detail_fails (show i) = false ->
                carries_details (enrich m (show i)) = true))
      /\ List.length ms - failures show (List.length ms)
         <= List.length (filter carries_details sorted)
      /\ ((forall m, In m ms -> lookup "details" m = None) ->
          List.length (filter carries_details sorted)
          = List.length ms - failures show (List.length ms)).
Proof.
  intros p ms show H.
  set (enriched := mapi (fun i m => enrich m (show i)) ms).
  assert (Hlen : List.length enriched = List.length ms)
    by apply mapi_from_length.
  destruct (sortedModels_sorts enriched) as (sorted & E & Hperm & Hsorted).
  { destruct H as [H|H]; [left; lia|right].
    unfold enriched, mapi. now rewrite mapi_from_has_name. }
  exists sorted. simpl. fold enriched. rewrite E.
  pose proof (enriched_count show ms 0) as [Hle Heq].
  fold (mapi (fun j m => enrich m (show j)) ms) in Hle, Heq.
  fold enriched in Hle, Heq. fold (failures show (List.length ms)) in Hle, Heq.
  rewrite (filter_length_perm carries_details _ _ Hperm).
  repeat split; auto.
  - rewrite <- Hlen. now apply Permutation_length.
  - unfold enriched, mapi.
    now rewrite (mapi_from_nth_error _ ms 0 i m).
  - apply enrich_keeps_model.
  - apply enrich_carries_details.
  - lia.
  - intros Hnone. specialize (Heq Hnone). lia.
Qed.

End ListingFacts.

(** The order of [String.compare] stands for the collation on the names of
    the scenario. *)
Lemma String_compare_total (a b : string) :
  String.compare a b = Gt -> String.compare b a <> Gt.
Proof.
  intros H. rewrite String.compare_antisym, H. discriminate.
Qed.

Lemma String_compare_trans (a b c : string) :
  String.compare a b <> Gt -> String.compare b c <> Gt ->
  String.compare a c <> Gt.
Proof.
  intros Hab Hbc.
  destruct (String.compare a b) eqn:Eab; [| |congruence].
  - apply String_as_OT.cmp_eq in Eab. now subst.
  - destruct (String.compare b c) eqn:Ebc; [| |congruence].
    + apply String_as_OT.cmp_eq in Ebc. subst. now rewrite Eab.
    + apply String_as_OT.cmp_lt in Eab, Ebc.
      pose proof (String_as_OT.lt_trans _ _ _ Eab Ebc) as Hac.
      apply String_as_OT.cmp_lt in Hac.
      unfold String_as_OT.cmp in Hac. now rewrite Hac.
Qed.

Lemma listing_returns_every_model_sorted_witness :
  exists sorted,
    snd (get_models String.compare (initial None)
           (Listing Samples.mistral_alpaca) Samples.second_fails)
    = Some (mkReply 200 (JArr (map JObj sorted)))
    /\ List.length sorted = 2
    /\ map name_text sorted = ["alpaca"; "mistral"]
    /\ map carries_details sorted = [false; true].
Proof.
  destruct (listing_returns_every_model_sorted String.compare
              String_compare_total String_compare_trans
              (initial None) Samples.mistral_alpaca Samples.second_fails
              (or_intror eq_refl))
    as (sorted & E & Hlen & _).
  exists sorted. split; [exact E|]. split; [exact Hlen|].
  vm_compute in E. injection E as E.
  destruct sorted as [|a [|b [|c l]]]; try discriminate.
  simpl in E. injection E as <- <-. split; reflexivity.
Defined.

(* ------------------------------------------------------------------ *)
(** ** The streaming relay *)

Section RelayFacts.

Variable JSON_parse_ok : string -> bool.

Lemma on_line_spec (r : relay) (line : string) :
  on_line JSON_parse_ok r line
  = mkRelay (where_ r) (hasEnded r)
      (out r ++ if JS.truthy (JS.trim line) && JSON_parse_ok line
                then [Write (line ++ nl)] else []).
Proof.
  unfold on_line.
  destruct (JS.truthy (JS.trim line)), (JSON_parse_ok line); simpl;
    try reflexivity; rewrite app_nil_r; now destruct r.
Qed.

Lemma on_lines_spec (lines : list string) :
  forall r,
    fold_left (on_line JSON_parse_ok) lines r
    = mkRelay (where_ r) (hasEnded r)
        (out r ++ map (fun l => Write (l ++ nl))
                      (filter (fun l => JS.truthy (JS.trim l)
                                        && JSON_parse_ok l) lines)).
Proof.
  induction lines as [|l lines IH]; intros r; simpl.
  - rewrite app_nil_r. now destruct r.
  - rewrite IH, on_line_spec. simpl.
    destruct (JS.truthy (JS.trim l) && JSON_parse_ok l); simpl.
    + now rewrite <- app_assoc.
    + now rewrite app_nil_r.
Qed.

(** What a chunk adds to the response: one write for each of its lines that
    is not blank and parses, and nothing else. *)
Lemma on_data_spec (chunk : string) (r : relay) :
  on_data JSON_parse_ok chunk r
  = mkRelay (where_ r) (hasEnded r)
      (out r ++ map (fun l => Write (l ++ nl))
                    (filter (fun l => JS.truthy (JS.trim l)
                                      && JSON_parse_ok l)
                            (JS.split "010" chunk))).
Proof. apply on_lines_spec. Qed.

Lemma closes_app (a b : list res_op) : closes (a ++ b) = closes a + closes b.
Proof. unfold closes. now rewrite filter_app, length_app. Qed.

Lemma closes_writes (lines : list string) :
  closes (map (fun l => Write (l ++ nl)) lines) = 0.
Proof. induction lines; simpl; auto. Qed.

Lemma endResponse_guarded (error : option string) (r : relay) :
  closes (out r) = (if hasEnded r then 1 else 0) ->
  closes (out (endResponse error r))
  = (if hasEnded (endResponse error r) then 1 else 0)
  /\ hasEnded (endResponse error r) = true
  /\ where_ (endResponse error r) = where_ r.
Proof.
  unfold endResponse. destruct (hasEnded r) eqn:E; intros H.
  - now rewrite E.
  - destruct error; simpl; repeat rewrite closes_app; rewrite H; auto.
Qed.

Lemma step_guarded (r : relay) (e : event) :
  guarded r -> guarded (step JSON_parse_ok r e).
Proof.
  intros [Hc Ha]. unfold step.
  destruct (where_ r) eqn:W; destruct e;
    try (split;
         [exact Hc
         |intro W'; rewrite W in W'; first [discriminate|now apply Ha]]).
  - split; simpl; [exact Hc|discriminate].
  - destruct (endResponse_guarded (Some message) r Hc) as (H1 & H2 & H3).
    split; simpl; [exact H1|discriminate].
  - rewrite on_data_spec. split; simpl.
    + rewrite closes_app, closes_writes. lia.
    + rewrite W. discriminate.
  - destruct (endResponse_guarded None r Hc) as (H1 & H2 & H3).
    split; [exact H1|]. rewrite H3, W. discriminate.
  - destruct (endResponse_guarded (Some message) r Hc) as (H1 & H2 & H3).
    split; [exact H1|]. rewrite H3, W. discriminate.
  - destruct (endResponse_guarded None r Hc) as (H1 & H2 & H3).
    split; [exact H1|]. rewrite H3, W. discriminate.
Qed.

Lemma steps_guarded (events : list event) :
  forall r, guarded r -> guarded (fold_left (step JSON_parse_ok) events r).
Proof.
  induction events as [|e events IH]; simpl; auto using step_guarded.
Qed.

Lemma run_guarded (events : list event) : guarded (run JSON_parse_ok events).
Proof. apply steps_guarded. split; reflexivity. Qed.

(** The response is closed at most once, whatever happens and in whatever
    order. *)
Lemma closed_at_most_once (events : list event) :
  closes (out (run JSON_parse_ok events)) <= 1.
Proof.
  destruct (run_guarded events) as [H _]. rewrite H.
  destruct (hasEnded _); lia.
Qed.

Lemma step_stays_ended (r : relay) (e : event) :
  hasEnded r = true -> hasEnded (step JSON_parse_ok r e) = true.
Proof.
  intros H. unfold step.
  destruct (where_ r), e; auto; try rewrite on_data_spec; simpl; auto;
    unfold endResponse; rewrite H; auto.
Qed.

Lemma steps_stay_ended (events : list event) :
  forall r,
    hasEnded r = true ->
    hasEnded (fold_left (step JSON_parse_ok) events r) = true.
Proof.
  induction events as [|e events IH]; simpl; auto using step_stays_ended.
Qed.

(** Once the guard is set, the end of the stream, an error and the close of
    the client do nothing at all. *)
Lemma terminal_event_after_end (r : relay) (e : event) :
  hasEnded r = true ->
  (forall chunk, e <> Data chunk) -> e <> InitResolved ->
  out (step JSON_parse_ok r e) = out r.
Proof.
  intros H Hd Hi. unfold step.
  destruct (where_ r), e; auto;
    try (exfalso; now eapply Hd); try (exfalso; now apply Hi);
    unfold endResponse; simpl; rewrite H; reflexivity.
Qed.

Lemma run_app (a b : list event) :
  run JSON_parse_ok (a ++ b)
  = fold_left (step JSON_parse_ok) b (run JSON_parse_ok a).
Proof. apply fold_left_app. Qed.

End RelayFacts.

(** A line that [trim] empties is not a JSON text. *)
Lemma trimEnd_empty (s : string) :
  JS.trimEnd s = EmptyString -> JS.trimStart s = EmptyString.
Proof.
  induction s as [|c s IH]; simpl; auto.
  destruct (JS.trimEnd s); [|discriminate].
  destruct (JS.is_ws c); [|discriminate]. auto.
Qed.

Lemma trimStart_idem (s : string) :
  JS.trimStart (JS.trimStart s) = JS.trimStart s.
Proof.
  induction s as [|c s IH]; simpl; auto.
  destruct (JS.is_ws c) eqn:E; auto. simpl. now rewrite E.
Qed.

Lemma blank_skip_ws (s : string) :
  JS.trimStart s = EmptyString ->
  skip_ws s = EmptyString
  \/ exists c r, skip_ws s = String c r
                 /\ JS.is_ws c = true /\ is_json_ws c = false.
Proof.
  induction s as [|c s IH]; simpl; auto.
  destruct (JS.is_ws c) eqn:E; [|discriminate].
  intros H. destruct (is_json_ws c) eqn:J; auto.
  right. now exists c, s.
Qed.

Lemma other_space_starts_no_value (c : ascii) (r : string) (k : nat) :
  JS.is_ws c = true -> is_json_ws c = false ->
  (if Ascii.eqb c "{" then
     match skip_ws r with
     | String d r' => if Ascii.eqb d "}" then Some r' else members k r
     | EmptyString => None
     end
   else if Ascii.eqb c "[" then
     match skip_ws r with
     | String d r' => if Ascii.eqb d "]" then Some r' else elements k r
     | EmptyString => None
     end
   else if Ascii.eqb c dquote then string_body r
   else if Ascii.eqb c "t" then literal "rue" r
   else if Ascii.eqb c "f" then literal "alse" r
   else if Ascii.eqb c "n" then literal "ull" r
   else number (String c r)) = None.
Proof.
  destruct c as [[] [] [] [] [] [] [] []]; intros H J;
    vm_compute in H; vm_compute in J; try discriminate; reflexivity.
Qed.

Lemma blank_line_never_parses (line : string) :
  JS.truthy (JS.trim line) = false -> parses line = false.
Proof.
  intros H.
  assert (Ht : JS.trimStart line = EmptyString).
  { unfold JS.trim in H.
    destruct (JS.trimEnd (JS.trimStart line)) eqn:E; [|discriminate].
    apply trimEnd_empty in E. now rewrite trimStart_idem in E. }
  unfold parses.
  replace (2 * String.length line + 2) with (S (S (2 * String.length line)))
    by lia.
  cbn [value].
  destruct (blank_skip_ws line Ht) as [E|(c & r & E & Hws & Hj)]; rewrite E.
  - reflexivity.
  - now rewrite other_space_starts_no_value.
Qed.

(** C5. While the relay listens, a chunk is split at its newlines and each
    line that parses as JSON is written to the client with a newline after
    it, in order; a line that does not parse (a blank line never does) adds
    nothing; the chunk neither closes the response nor sets the guard, and
    the relay goes on listening. *)
Theorem chunk_forwards_lines_that_parse :
  forall (JSON_parse_ok : string -> bool) (r : relay) (chunk : string),
    (forall line,
        JS.truthy (JS.trim line) = false -> JSON_parse_ok line = false) ->
    where_ r = Listening ->
    out (step JSON_parse_ok r (Data chunk))
    = out r ++ map (fun line => Write (line ++ nl))
                   (filter JSON_parse_ok (JS.split "010" chunk))
    /\ hasEnded (step JSON_parse_ok r (Data chunk)) = hasEnded r
    /\ where_ (step JSON_parse_ok r (Data chunk)) = Listening.
Proof.
  intros parse r chunk Hblank W. unfold step. rewrite W, on_data_spec. simpl.
  repeat split; auto. f_equal. f_equal.
  apply filter_ext. intros line.
  destruct (JS.truthy (JS.trim line)) eqn:E; auto.
  simpl. symmetry. now apply Hblank.
Qed.

Lemma chunk_forwards_lines_that_parse_witness :
  out (run parses [InitResolved; Data Samples.first_chunk;
                   Data Samples.second_chunk])
  = [SetHeader "Content-Type" "application/json";
     SetHeader "Transfer-Encoding" "chunked";
     Write (Samples.downloading ++ nl)]
  /\ hasEnded (run parses [InitResolved; Data Samples.first_chunk;
                           Data Samples.second_chunk]) = false
  /\ where_ (run parses [InitResolved; Data Samples.first_chunk;
                         Data Samples.second_chunk]) = Listening.
Proof.
  pose (r1 := run parses [InitResolved]).
  pose (r2 := step parses r1 (Data Samples.first_chunk)).
  destruct (chunk_forwards_lines_that_parse parses r1 Samples.first_chunk
              blank_line_never_parses eq_refl) as (O1 & E1 & W1).
  destruct (chunk_forwards_lines_that_parse parses r2 Samples.second_chunk
              blank_line_never_parses W1) as (O2 & E2 & W2).
  change (run parses [InitResolved; Data Samples.first_chunk;
                      Data Samples.second_chunk])
    with (step parses r2 (Data Samples.second_chunk)).
  rewrite O2, E2, W2. unfold r2. rewrite O1, E1.
  repeat split.
Defined.

(** The listener of [data] does not consult the guard: a chunk is forwarded
    the same whether or not the response has been closed. *)
Lemma data_listener_ignores_guard (JSON_parse_ok : string -> bool)
    (r : relay) (chunk : string) :
  where_ r = Listening ->
  out (step JSON_parse_ok r (Data chunk))
  = out r ++ map (fun line => Write (line ++ nl))
                 (filter (fun line => JS.truthy (JS.trim line)
                                      && JSON_parse_ok line)
                         (JS.split "010" chunk)).
Proof.
  intros W. unfold step. rewrite W, on_data_spec. reflexivity.
Qed.

(** C1. Evaluated where it fails: the client closes while the relay
    listens, and the backend then delivers a record. The response is closed
    once, by the close of the client, and the record is written to it after
    that: the listener of [data] does not consult the guard. *)
Theorem record_is_written_after_client_close :
  out (run parses [InitResolved; ClientClose;
                   Data (Samples.downloading ++ nl); StreamEnd])
  = [SetHeader "Content-Type" "application/json";
     SetHeader "Transfer-Encoding" "chunked";
     End;
     Write (Samples.downloading ++ nl)]
  /\ closes (out (run parses [InitResolved; ClientClose;
                              Data (Samples.downloading ++ nl); StreamEnd]))
     = 1.
Proof. split; reflexivity. Qed.

(** C4. Evaluated where it fails: the client closes while the initiating
    call is awaited, and the call then fails. The listener of [close] is
    registered only after that call has resolved, so the close is not seen:
    the error record is written to the closed client and the response is
    closed, where the claim says that nothing more is written. *)
Lemma error_record_written_to_closed_client :
  out (run parses [ClientClose; InitRejected Samples.refused])
  = out (run parses [ClientClose])
    ++ [Write (error_record Samples.refused); End]
  /\ out (run parses [ClientClose; InitRejected Samples.refused])
     <> out (run parses [ClientClose]).
Proof. split; [reflexivity|discriminate]. Qed.

(** The error paths as the code is written. When the initiating call
    fails, or the stream of the backend raises an error while the relay
    listens, and the guard is not yet set, exactly one record
    [error_record message], which ends in a newline, is written and the
    response is then closed. When the guard is set, as it is once a close of
    the client has been handled by the listener of the relay, the error
    writes nothing and changes nothing. Either way the response has been
    closed exactly once, whatever follows. The guard is the only thing the
    code consults: it is never set while the initiating call is awaited,
    which is how a close of the client in that time goes unseen. *)
Theorem error_is_reported_once_unless_ended :
  forall (JSON_parse_ok : string -> bool) (before : list event)
         (message : string) (e : event),
    (where_ (run JSON_parse_ok before) = Awaiting /\ e = InitRejected message)
    \/ (where_ (run JSON_parse_ok before) = Listening
        /\ e = StreamError message) ->
    (hasEnded (run JSON_parse_ok before) = false ->
     out (step JSON_parse_ok (run JSON_parse_ok before) e)
     = out (run JSON_parse_ok before)
       ++ [Write (error_record message); End])
    /\ (hasEnded (run JSON_parse_ok before) = true ->
        step JSON_parse_ok (run JSON_parse_ok before) e
        = run JSON_parse_ok before)
    /\ (where_ (run JSON_parse_ok before) = Awaiting ->
        hasEnded (run JSON_parse_ok before) = false)
    /\ (forall b1 b2,
          before = b1 ++ ClientClose :: b2 ->
          where_ (run JSON_parse_ok b1) = Listening ->
          hasEnded (run JSON_parse_ok before) = true)
    /\ (forall after,
          closes (out (run JSON_parse_ok (before ++ e :: after))) = 1).
Proof.
  intros parse before message e He.
  set (r := run parse before).
  destruct (run_guarded parse before) as [Hc Ha]. fold r in Hc, Ha.
  assert (Hstep : step parse r e = endResponse (Some message) r
                  \/ (hasEnded r = false
                      /\ step parse r e
                         = enter Detached (endResponse (Some message) r))).
  { unfold step. destruct He as [[W ->]|[W ->]]; fold r in W; rewrite W.
    - right. split; auto.
    - now left. }
  split; [|split; [|split; [|split]]].
  - intros E. destruct Hstep as [->|[_ ->]];
      unfold endResponse; rewrite E; simpl; now rewrite <- app_assoc.
  - intros E. destruct Hstep as [->|[E' _]]; [|congruence].
    unfold endResponse. now rewrite E.
  - exact Ha.
  - intros b1 b2 -> W. unfold r. rewrite run_app. simpl.
    apply steps_stay_ended. unfold step. rewrite W.
    destruct (endResponse_guarded None (run parse b1)) as (_ & H & _); auto.
    apply run_guarded.
  - intros after. rewrite run_app. simpl. fold r.
    assert (Hended : hasEnded (step parse r e) = true).
    { destruct Hstep as [->|[_ ->]]; simpl;
        now destruct (endResponse_guarded (Some message) r Hc) as (_ & H & _). }
    pose proof (steps_stay_ended parse after _ Hended) as Hfin.
    assert (Hg : guarded (fold_left (step parse) after (step parse r e))).
    { apply steps_guarded, step_guarded. now split. }
    destruct Hg as [Hg _]. now rewrite Hfin in Hg.
Qed.

Lemma error_is_reported_once_unless_ended_witness :
  out (run parses [InitRejected Samples.refused])
  = [SetHeader "Content-Type" "application/json";
     SetHeader "Transfer-Encoding" "chunked";
     Write (error_record Samples.refused); End]
  /\ step parses (run parses [InitResolved; ClientClose])
          (StreamError Samples.refused)
     = run parses [InitResolved; ClientClose]
  /\ closes (out (run parses [InitResolved; ClientClose;
                              StreamError Samples.refused; StreamEnd])) = 1.
Proof.
  destruct (error_is_reported_once_unless_ended parses []
              Samples.refused (InitRejected Samples.refused)
              (or_introl (conj eq_refl eq_refl))) as (H1 & _).
  destruct (error_is_reported_once_unless_ended parses
              [InitResolved; ClientClose]
              Samples.refused (StreamError Samples.refused)
              (or_intror (conj eq_refl eq_refl))) as (_ & H2 & _ & H3 & H4).
  split; [exact (H1 eq_refl)|].
  split; [apply H2; apply (H3 [InitResolved] []); reflexivity|].
  exact (H4 [StreamEnd]).
Defined.

(* ================================================================== *)
(** * Further properties of the code *)

Import BasicAuth Shapes.

(** ** Texts: [trim], [split], [indexOf], [slice] *)

Lemma trimEnd_cons (c : ascii) (r : string) :
  JS.trimEnd (String c r)
  = match JS.trimEnd r with
    | EmptyString => if JS.is_ws c then EmptyString else String c EmptyString
    | String d r' => String c (String d r')
    end.
Proof. reflexivity. Qed.

Lemma trimEnd_idem (s : string) : JS.trimEnd (JS.trimEnd s) = JS.trimEnd s.
Proof.
  induction s as [|c s IH]; auto.
  rewrite trimEnd_cons.
  destruct (JS.trimEnd s) as [|d r] eqn:E.
  - destruct (JS.is_ws c) eqn:W; auto.
    rewrite trimEnd_cons. simpl. now rewrite W.
  - rewrite trimEnd_cons, IH. reflexivity.
Qed.

Lemma trimStart_of_trimEnd (s : string) :
  JS.trimStart s = s -> JS.trimStart (JS.trimEnd s) = JS.trimEnd s.
Proof.
  destruct s as [|c s]; simpl; auto.
  destruct (JS.is_ws c) eqn:W.
  - intros H. exfalso.
    assert (L : String.length (JS.trimStart s) <= String.length s).
    { clear. induction s as [|d s IH]; simpl; auto.
      destruct (JS.is_ws d); simpl; lia. }
    rewrite H in L. simpl in L. lia.
  - intros _. destruct (JS.trimEnd s); simpl; now rewrite W.
Qed.

Lemma trim_idem (s : string) : JS.trim (JS.trim s) = JS.trim s.
Proof.
  unfold JS.trim.
  rewrite trimStart_of_trimEnd by apply trimStart_idem.
  apply trimEnd_idem.
Qed.

Lemma trimStart_lacks (c : ascii) (s : string) :
  JS.lacks c s = true -> JS.lacks c (JS.trimStart s) = true.
Proof.
  induction s as [|d s IH]; simpl; auto.
  intros H. destruct (JS.is_ws d); auto.
  apply andb_true_iff in H as [_ H]. auto.
Qed.

Lemma trimEnd_lacks (c : ascii) (s : string) :
  JS.lacks c s = true -> JS.lacks c (JS.trimEnd s) = true.
Proof.
  induction s as [|d s IH]; simpl; auto.
  intros H. apply andb_true_iff in H as [Hd H]. specialize (IH H).
  destruct (JS.trimEnd s).
  - destruct (JS.is_ws d); simpl; auto. now rewrite Hd.
  - simpl in *. now rewrite Hd, IH.
Qed.

Lemma trim_lacks (c : ascii) (s : string) :
  JS.lacks c s = true -> JS.lacks c (JS.trim s) = true.
Proof. intros H. now apply trimEnd_lacks, trimStart_lacks. Qed.

Lemma indexOf_none_lacks (c : ascii) (s : string) :
  JS.indexOf c s = None <-> JS.lacks c s = true.
Proof.
  induction s as [|d s IH]; simpl; [tauto|].
  destruct (Ascii.eqb d c); simpl.
  - split; discriminate.
  - destruct (JS.indexOf c s); [split; [discriminate|]|tauto].
    intros H. apply IH in H. discriminate.
Qed.

Lemma slice_to_lacks (c : ascii) (s : string) :
  forall i, JS.indexOf c s = Some i -> JS.lacks c (JS.slice_to i s) = true.
Proof.
  induction s as [|d s IH]; simpl; [discriminate|].
  intros i. destruct (Ascii.eqb d c) eqn:E.
  - intros [= <-]. reflexivity.
  - destruct (JS.indexOf c s) as [j|]; [|discriminate].
    intros [= <-]. simpl. rewrite E. simpl. now apply IH.
Qed.

Lemma split_app (c : ascii) (a b : string) :
  JS.split c (a ++ String c b) = JS.split c a ++ JS.split c b.
Proof.
  induction a as [|d a IH]; simpl.
  - now rewrite Ascii.eqb_refl.
  - destruct (Ascii.eqb d c); [now rewrite IH|].
    rewrite IH. destruct (JS.split c a) eqn:E; [|reflexivity].
    destruct a; simpl in E; [discriminate|].
    destruct (Ascii.eqb a c); [discriminate|].
    destruct (JS.split c a0); discriminate.
Qed.

Lemma split_lacking (c : ascii) (s : string) :
  JS.lacks c s = true -> JS.split c s = [s].
Proof.
  induction s as [|d s IH]; simpl; auto.
  intros H. apply andb_true_iff in H as [Hd H].
  apply negb_true_iff in Hd. now rewrite Hd, IH.
Qed.

Lemma append_truthy (a b : string) :
  JS.truthy a = true -> JS.truthy (a ++ b) = true.
Proof. now destruct a. Qed.

(** ** The endpoint registry, further *)

Lemma entries_app (a b : string) :
  entries (a ++ String "," b) = entries a ++ entries b.
Proof.
  unfold entries. now rewrite split_app, map_app, filter_app.
Qed.

Lemma entry_trimmed (raw item : string) :
  In item (entries raw) -> JS.trim item = item /\ item <> EmptyString.
Proof.
  unfold entries. intros H. apply filter_In in H as [H T].
  apply in_map_iff in H as (x & <- & _). split; [apply trim_idem|].
  intros E. now rewrite E in T.
Qed.

Lemma parsed_url_lacks_underscore (item : string) :
  JS.lacks "_" (url (parse_item item)) = true.
Proof.
  unfold parse_item. destruct (JS.indexOf "_" item) as [i|] eqn:E; simpl.
  - now apply trim_lacks, slice_to_lacks.
  - now apply indexOf_none_lacks.
Qed.

(** X1. No parsed entry has a url with an underscore in it: a url that
    holds one is not among the listed endpoints and resolves to no
    credential, whatever the configuration says. *)
Theorem url_with_underscore_is_unknown :
  forall (env : option string) (u : string),
    JS.lacks "_" u = false ->
    ~ In u (getEndpoints env) /\ getApiKeyFor env (Some u) = None.
Proof.
  intros env u Hu.
  assert (H : forall c, In c (getEndpointConfigs env) -> url c <> u).
  { intros c Hc E. unfold getEndpointConfigs in Hc.
    apply in_map_iff in Hc as (item & Ec & _).
    rewrite <- E, <- Ec, parsed_url_lacks_underscore in Hu. discriminate. }
  split.
  - unfold getEndpoints. intros Hin.
    apply in_map_iff in Hin as (c & E & Hc). now apply (H c).
  - unfold getApiKeyFor. rewrite find_absent; auto.
    intros c Hc. simpl. apply String.eqb_neq. now apply H.
Qed.

Lemma url_with_underscore_is_unknown_witness :
  ~ In "http://my_host:11434" (getEndpoints Samples.underscored)
  /\ getApiKeyFor Samples.underscored (Some "http://my_host:11434") = None.
Proof.
  apply (url_with_underscore_is_unknown Samples.underscored
           "http://my_host:11434").
  reflexivity.
Defined.

(** X2. Every parsed entry has a url that [trim] leaves as it is, and a
    credential that is [null] or a text that is not empty and that [trim]
    leaves as it is. *)
Theorem parsed_entries_are_trimmed :
  forall env : option string,
    Forall (fun c =>
              trimmed (url c)
              /\ match apiKey c with
                 | Some k => trimmed k /\ k <> EmptyString
                 | None => True
                 end)
           (getEndpointConfigs env).
Proof.
  intros env. apply Forall_forall. intros c Hc.
  unfold getEndpointConfigs in Hc.
  apply in_map_iff in Hc as (item & <- & Hitem).
  apply entry_trimmed in Hitem as [Ht _].
  unfold parse_item, trimmed.
  destruct (JS.indexOf "_" item) as [i|]; simpl; [|auto].
  split; [apply trim_idem|].
  unfold JS.or_null.
  destruct (JS.truthy (JS.trim (JS.slice_from (i + 1) item))) eqn:T; auto.
  split; [apply trim_idem|]. intros E. now rewrite E in T.
Qed.

Lemma all_ws_trims_to_nothing (s : string) :
  all_chars JS.is_ws s = true -> JS.trim s = EmptyString.
Proof.
  intros H. unfold JS.trim.
  assert (E : JS.trimStart s = EmptyString).
  { induction s as [|c s IH]; simpl in *; auto.
    apply andb_true_iff in H as [-> H]. auto. }
  now rewrite E.
Qed.

Lemma split_of_blanks (s : string) :
  all_chars blank_or_comma s = true ->
  Forall (fun x => all_chars JS.is_ws x = true) (JS.split "," s).
Proof.
  induction s as [|c s IH]; simpl.
  - repeat constructor.
  - intros H. apply andb_true_iff in H as [Hc H]. specialize (IH H).
    destruct (Ascii.eqb c ",") eqn:E.
    + constructor; auto.
    + unfold blank_or_comma in Hc. rewrite E, orb_false_r in Hc.
      destruct (JS.split "," s) as [|h t].
      * repeat constructor. simpl. now rewrite Hc.
      * inversion IH; subst. constructor; auto. simpl. now rewrite Hc.
Qed.

Lemma entries_of_blanks (s : string) :
  all_chars blank_or_comma s = true -> entries s = [].
Proof.
  intros H. unfold entries. apply split_of_blanks in H.
  induction H as [|x l Hx _ IH]; simpl; auto.
  now rewrite (all_ws_trims_to_nothing x Hx).
Qed.

(** X3. The default endpoint stands in only for a configuration that is
    unset or the empty text. A configuration that is not empty but holds
    nothing except white space and commas yields no endpoint at all, and
    then no url resolves to a credential. *)
Theorem blank_configuration_has_no_endpoint :
  getEndpointConfigs None = [mkConfig "http://localhost:11434" None]
  /\ getEndpointConfigs (Some "") = [mkConfig "http://localhost:11434" None]
  /\ forall s : string,
       s <> EmptyString ->
       all_chars blank_or_comma s = true ->
       getEndpointConfigs (Some s) = []
       /\ getEndpoints (Some s) = []
       /\ forall u, getApiKeyFor (Some s) u = None.
Proof.
  split; [reflexivity|]. split; [reflexivity|].
  intros s Hs Hb.
  assert (E : getEndpointConfigs (Some s) = []).
  { unfold getEndpointConfigs, raw_of.
    destruct s; [congruence|]. simpl JS.truthy. cbv iota.
    now rewrite entries_of_blanks. }
  split; [exact E|]. split.
  - unfold getEndpoints. now rewrite E.
  - intros u. unfold getApiKeyFor. now rewrite E.
Qed.

Lemma blank_configuration_has_no_endpoint_witness :
  getEndpointConfigs (Some Scenarios.only_blanks) = []
  /\ getApiKeyFor (Some Scenarios.only_blanks) (Some "http://localhost:11434")
     = None.
Proof.
  destruct blank_configuration_has_no_endpoint as (_ & _ & H).
  destruct (H Scenarios.only_blanks) as (E & _ & K).
  - discriminate.
  - reflexivity.
  - split; [exact E|apply K].
Defined.

(** X4. Configurations concatenate: the entries of [a,b] are the entries of
    [a] followed by the entries of [b], and so are the listed urls; the
    order of the configuration is the order of the list. *)
Theorem configuration_concatenates :
  forall a b : string,
    a <> EmptyString -> b <> EmptyString ->
    getEndpointConfigs (Some (a ++ String "," b)%string)
    = getEndpointConfigs (Some a) ++ getEndpointConfigs (Some b)
    /\ getEndpoints (Some (a ++ String "," b)%string)
       = getEndpoints (Some a) ++ getEndpoints (Some b).
Proof.
  intros a b Ha Hb.
  assert (E : getEndpointConfigs (Some (a ++ String "," b)%string)
              = getEndpointConfigs (Some a) ++ getEndpointConfigs (Some b)).
  { unfold getEndpointConfigs, raw_of.
    destruct a as [|c a]; [congruence|]. destruct b as [|d b]; [congruence|].
    simpl JS.truthy. cbv iota.
    now rewrite entries_app, map_app. }
  split; [exact E|].
  unfold getEndpoints. now rewrite E, map_app.
Qed.

Lemma configuration_concatenates_witness :
  getEndpoints (Some "http://a:1_k1,http://b:2")
  = getEndpoints (Some "http://a:1_k1") ++ getEndpoints (Some "http://b:2").
Proof.
  apply (configuration_concatenates "http://a:1_k1" "http://b:2");
    discriminate.
Defined.

(** ** The active target and the calls, further *)

(** X5. Setting the target and then calling the backend: the probe, the
    running-models call, the listing call, every delete call and the pull
    call go to the new target and carry the credential configured for it,
    whether the probe succeeded or not. *)
Theorem calls_after_set_endpoint_use_new_target :
  forall (cmp : string -> string -> comparison) (parse : string -> bool)
         (te : string) (p : process) (u : string) (probe : outcome),
    Forall (addressed u
              ("Bearer "
               ++ subst_null (getApiKeyFor (OLLAMA_ENDPOINTS p) (Some u)))
              "/api/tags")
           (snd (fst (set_endpoint p (Some u) probe)))
    /\ (forall answer,
          Forall (addressed u
                    ("Bearer "
                     ++ subst_null
                          (getApiKeyFor (OLLAMA_ENDPOINTS p) (Some u)))
                    "/api/ps")
                 (fst (ps (fst (fst (set_endpoint p (Some u) probe)))
                          answer)))
    /\ (forall tags show,
          exists r rest,
            fst (get_models cmp (fst (fst (set_endpoint p (Some u) probe)))
                            tags show) = r :: rest
            /\ addressed u
                 ("Bearer "
                  ++ subst_null (getApiKeyFor (OLLAMA_ENDPOINTS p) (Some u)))
                 "/api/tags" r)
    /\ (forall ms answer,
          Forall (addressed u
                    ("Bearer "
                     ++ subst_null
                          (getApiKeyFor (OLLAMA_ENDPOINTS p) (Some u)))
                    "/api/delete")
                 (fst (delete_models te
                         (fst (fst (set_endpoint p (Some u) probe)))
                         (Some ms) answer)))
    /\ (forall operation events,
          Forall (addressed u
                    ("Bearer "
                     ++ subst_null
                          (getApiKeyFor (OLLAMA_ENDPOINTS p) (Some u)))
                    "/api/pull")
                 (fst (handleModelOperation parse
                         (fst (fst (set_endpoint p (Some u) probe)))
                         operation events))).
Proof.
  intros cmp parse te p u probe.
  split.
  - simpl. constructor; [|constructor]. split; reflexivity.
  - exact (configured_calls_use_active_target cmp parse te
             (fst (fst (set_endpoint p (Some u) probe))) u eq_refl).
Qed.

Lemma getApiKeyFor_undefined (env : option string) :
  getApiKeyFor env None = None.
Proof.
  unfold getApiKeyFor. now rewrite find_absent.
Qed.

(** X6. A request to set the endpoint whose body has no [endpoint] leaves
    the target [undefined]: the probe and every later call are addressed to
    the text [undefined] followed by the path, with the bearer value
    [null], until the target is set again. *)
Theorem missing_endpoint_leaves_target_undefined :
  forall (parse : string -> bool) (te : string) (p : process)
         (probe : outcome),
    ollamaEndpoint (fst (fst (set_endpoint p None probe))) = None
    /\ map (fun r => (target r, header_of "Authorization" r))
           (snd (fst (set_endpoint p None probe)))
       = [("undefined/api/tags", Some "Bearer null")]
    /\ (forall answer,
          map (fun r => (target r, header_of "Authorization" r))
              (fst (ps (fst (fst (set_endpoint p None probe))) answer))
          = [("undefined/api/ps", Some "Bearer null")])
    /\ (forall m answer,
          map (fun r => (target r, header_of "Authorization" r))
              (fst (delete_models te (fst (fst (set_endpoint p None probe)))
                      (Some [m]) answer))
          = [("undefined/api/delete", Some "Bearer null")])
    /\ (forall operation events,
          map (fun r => (target r, header_of "Authorization" r))
              (fst (handleModelOperation parse
                      (fst (fst (set_endpoint p None probe)))
                      operation events))
          = [("undefined/api/pull", Some "Bearer null")]).
Proof.
  intros parse te p probe.
  assert (B : bearer (fst (fst (set_endpoint p None probe))) = "Bearer null").
  { unfold bearer. simpl. now rewrite getApiKeyFor_undefined. }
  repeat split; intros; simpl; unfold header_of; simpl;
    unfold bearer in *; simpl in *; now rewrite ?B.
Qed.

(** ** The batch delete, further *)

Lemma filter_map_compose {A B} (f : A -> B) (g : B -> bool) (l : list A) :
  filter g (map f l) = map f (filter (fun x => g (f x)) l).
Proof.
  induction l as [|a l IH]; simpl; auto.
  destruct (g (f a)); simpl; now rewrite IH.
Qed.

Lemma join_names_known (l : list string) :
  join_names (map Some l) = JS.join ", " l.
Proof.
  unfold join_names. rewrite map_map. now rewrite map_id.
Qed.

(** X7. The answer to a batch delete in general: with [k] of the calls
    rejected it is 200 when [k] is 0, and otherwise 500 with a message that
    lists the first [k] models of the request in order, whichever calls
    were the rejected ones. *)
Theorem delete_reply_lists_first_models :
  forall (te : string) (p : process) (ms : list string)
         (answer : nat -> outcome),
    snd (delete_models te p (Some ms) answer)
    = match List.length (filter (fun i => rejected (answer i))
                                (seq 0 (List.length ms))) with
      | O => mkReply 200
               (JObj [("success", JBool true);
                      ("message", JStr "Models deleted successfully")])
      | S k => mkReply 500
                 (JObj [("success", JBool false);
                        ("message",
                         JStr ("Failed to delete models: "
                               ++ JS.join ", " (firstn (S k) ms)))])
      end.
Proof.
  intros te p ms answer. unfold delete_models. cbv zeta.
  assert (Er : mapi (fun (i : nat) (_ : string) => answer i) ms
               = map answer (seq 0 (List.length ms)))
    by apply mapi_from_const.
  rewrite !Er. clear Er.
  set (results := map answer (seq 0 (List.length ms))).
  assert (Hlen : List.length results = List.length ms)
    by (unfold results; now rewrite length_map, length_seq).
  rewrite (failed_names_are_a_prefix ms results Hlen).
  assert (Hk : List.length (filter rejected results)
               = List.length (filter (fun i => rejected (answer i))
                                     (seq 0 (List.length ms)))).
  { unfold results. now rewrite filter_map_compose, length_map. }
  assert (Hle : List.length (filter rejected results) <= List.length ms).
  { rewrite <- Hlen. apply filter_length_le. }
  rewrite Hk in *. cbn [snd].
  rewrite length_map, length_firstn, join_names_known.
  destruct (List.length (filter (fun i => rejected (answer i))
                                (seq 0 (List.length ms)))) as [|k].
  - reflexivity.
  - replace (Nat.min (S k) (List.length ms)) with (S k) by lia. reflexivity.
Qed.

(** X8. A batch delete is all or nothing in its status only: the answer is
    200 exactly when none of the calls for the models of the request is
    rejected, it is 500 otherwise, and a call is issued for every model in
    either case. *)
Theorem delete_status_reflects_rejections :
  forall (te : string) (p : process) (ms : list string)
         (answer : nat -> outcome),
    (status (snd (delete_models te p (Some ms) answer)) = 200
     <-> forall i, i < List.length ms -> rejected (answer i) = false)
    /\ (status (snd (delete_models te p (Some ms) answer)) = 500
        <-> exists i, i < List.length ms /\ rejected (answer i) = true)
    /\ map data (fst (delete_models te p (Some ms) answer))
       = map (fun m => Some (JObj [("name", JStr m)])) ms.
Proof.
  intros te p ms answer.
  destruct (delete_succeeds_iff_none_rejected te p ms answer) as [H200 Hor].
  split; [exact H200|]. split.
  - split.
    + intros H500.
      destruct (existsb (fun i => rejected (answer i))
                        (seq 0 (List.length ms))) eqn:E.
      * apply existsb_exists in E as (i & Hi & Hr). apply in_seq in Hi.
        exists i. split; [lia|exact Hr].
      * exfalso.
        assert (H : status (snd (delete_models te p (Some ms) answer)) = 200).
        { apply H200. intros i Hi.
          destruct (rejected (answer i)) eqn:Er; auto.
          assert (X : existsb (fun i => rejected (answer i))
                              (seq 0 (List.length ms)) = true).
          { apply existsb_exists. exists i. split; auto.
            apply in_seq. lia. }
          congruence. }
        congruence.
    + intros (i & Hi & Hr). destruct Hor as [H|H]; auto.
      exfalso. pose proof (proj1 H200 H i Hi) as Hn.
      rewrite Hn in Hr. discriminate.
  - simpl. rewrite map_map. reflexivity.
Qed.

(** ** The model listing, further *)

Lemma set_field_keys_new (k : string) (v : json) (o : obj) :
  lookup k o = None -> map fst (set_field k v o) = map fst o ++ [k].
Proof.
  induction o as [|[k' v'] o IH]; simpl; auto.
  destruct (String.eqb k' k); [discriminate|].
  intros H. simpl. now rewrite IH.
Qed.

Lemma set_field_keys_old (k : string) (v : json) (o : obj) :
  lookup k o <> None -> map fst (set_field k v o) = map fst o.
Proof.
  induction o as [|[k' v'] o IH]; simpl; [congruence|].
  destruct (String.eqb k' k); auto.
  intros H. simpl. now rewrite IH.
Qed.

(** X9. Enriching a model touches its [details] and nothing else. Every
    other field keeps its value. When the detail call fails the model is
    returned as it is. When it succeeds the model carries the new object of
    six fields under [details]: put last, after the fields of the model in
    their order, when the model had no such field, and in the place of the
    old value, the fields as they were, when it had one. *)
Theorem enrichment_touches_only_details :
  forall (m : obj) (o : outcome),
    (forall k, k <> "details" -> lookup k (enrich m o) = lookup k m)
    /\ (detail_fails o = true -> enrich m o = m)
    /\ (detail_fails o = false ->
        (exists det,
            lookup "details" (enrich m o) = Some (JObj det)
            /\ map fst det = ["parent_model"; "format"; "family"; "families";
                              "parameter_size"; "quantization_level"])
        /\ (lookup "details" m = None ->
            map fst (enrich m o) = map fst m ++ ["details"])
        /\ (lookup "details" m <> None ->
            map fst (enrich m o) = map fst m)).
Proof.
  intros m o. split; [|split].
  - intros k Hk. destruct (detail_fails o) eqn:E.
    + now rewrite enrich_keeps_model.
    + destruct (enrich_adds_details m o E) as (_ & _ & _ & H). now apply H.
  - apply enrich_keeps_model.
  - intros E. split; [|split].
    + destruct (enrich_adds_details m o E) as (det & H1 & H2 & _).
      now exists det.
    + intros Hnone. unfold enrich.
      destruct o as [d|e]; [|discriminate]. simpl in E.
      destruct (details_of d); [|discriminate].
      now apply set_field_keys_new.
    + intros Hsome. unfold enrich.
      destruct o as [d|e]; [|discriminate]. simpl in E.
      destruct (details_of d); [|discriminate].
      now apply set_field_keys_old.
Qed.

Lemma enrichment_touches_only_details_witness :
  lookup "size" (enrich Samples.llama (Samples.always_ok 0))
  = Some (JNum 4661224676)
  /\ map fst (enrich Samples.llama (Samples.always_ok 0))
     = ["name"; "size"; "details"]
  /\ enrich Samples.llama (Samples.second_fails 1) = Samples.llama.
Proof.
  destruct (enrichment_touches_only_details Samples.llama
              (Samples.always_ok 0)) as (H1 & _ & H3).
  destruct (enrichment_touches_only_details Samples.llama
              (Samples.second_fails 1)) as (_ & H2 & _).
  destruct (H3 eq_refl) as (_ & Hnew & _).
  split; [rewrite H1; [reflexivity|discriminate]|].
  split; [exact (Hnew eq_refl)|exact (H2 eq_refl)].
Defined.

Section SortFacts.

Variable localeCompare : string -> string -> comparison.

Lemma insert_in_order (x : obj) (l : list obj) :
  Forall (in_order localeCompare x) l -> insert localeCompare x l = x :: l.
Proof.
  destruct l as [|y l]; simpl; auto.
  intros H. inversion H as [|? ? Hy _]; subst.
  unfold comes_after. unfold in_order in Hy.
  destruct (localeCompare (name_text x) (name_text y)); congruence.
Qed.

Lemma sort_of_sorted (l : list obj) :
  StronglySorted (in_order localeCompare) l -> sort localeCompare l = l.
Proof.
  induction 1 as [|x l Hl IH Hx]; simpl; auto.
  rewrite IH. now apply insert_in_order.
Qed.

Lemma mapi_from_sorted (show : nat -> outcome) (ms : list obj) :
  StronglySorted (in_order localeCompare) ms ->
  forall i,
    StronglySorted (in_order localeCompare)
                   (mapi_from (fun j m => enrich m (show j)) i ms).
Proof.
  assert (N : forall m o, name_text (enrich m o) = name_text m)
    by (intros; unfold name_text; now rewrite enrich_keeps_name).
  induction 1 as [|x l Hl IH Hx]; intros i; simpl; constructor; auto.
  clear IH Hl. revert Hx. generalize (S i) as j.
  induction l as [|y l IH]; intros j Hx; simpl; constructor.
  - inversion Hx; subst. unfold in_order in *. now rewrite !N.
  - apply IH. now inversion Hx.
Qed.

(** X11. A listing that the backend gives in ascending order of name, every
    model with a name, is answered in that order: the sort moves nothing. *)
Theorem listing_in_order_is_kept :
  forall (p : process) (ms : list obj) (show : nat -> outcome),
    forallb has_name ms = true ->
    StronglySorted (in_order localeCompare) ms ->
    snd (get_models localeCompare p (Listing ms) show)
    = Some (mkReply 200
              (JArr (map JObj (mapi (fun i m => enrich m (show i)) ms)))).
Proof.
  intros p ms show Hn Hs. unfold get_models. cbn [snd].
  set (enriched := mapi (fun i m => enrich m (show i)) ms).
  assert (He : forallb has_name enriched = true)
    by (unfold enriched, mapi; now rewrite mapi_from_has_name).
  assert (Hse : StronglySorted (in_order localeCompare) enriched)
    by (now apply mapi_from_sorted).
  unfold sortedModels.
  destruct (List.length enriched <=? 1)%nat; auto.
  now rewrite He, sort_of_sorted.
Qed.

(** Of a name with itself the collation never says that it comes after. *)
Hypothesis localeCompare_refl : forall a, localeCompare a a <> Gt.

Lemma insert_named (n : string) (x : obj) (l : list obj) :
  Scenarios.named n (insert localeCompare x l) = Scenarios.named n (x :: l).
Proof.
  unfold Scenarios.named.
  induction l as [|y l IH]; simpl; auto.
  destruct (comes_after localeCompare x y) eqn:C; auto.
  simpl. rewrite IH. simpl.
  destruct (String.eqb (name_text x) n) eqn:Ex; auto.
  destruct (String.eqb (name_text y) n) eqn:Ey; auto.
  exfalso. apply String.eqb_eq in Ex, Ey. unfold comes_after in C.
  rewrite Ex, Ey in C.
  destruct (localeCompare n n) eqn:R; try discriminate.
  now apply (localeCompare_refl n).
Qed.

Lemma sort_named (n : string) (l : list obj) :
  Scenarios.named n (sort localeCompare l) = Scenarios.named n l.
Proof.
  induction l as [|x l IH]; simpl; auto.
  rewrite insert_named. unfold Scenarios.named in *. simpl. now rewrite IH.
Qed.

(** X10. The sort of the listing is stable: the models that share a name
    stand in the answer in the order in which the backend listed them. *)
Theorem listing_keeps_order_of_equal_names :
  forall (p : process) (ms : list obj) (show : nat -> outcome) (n : string),
    forallb has_name ms = true ->
    exists sorted,
      snd (get_models localeCompare p (Listing ms) show)
      = Some (mkReply 200 (JArr (map JObj sorted)))
      /\ Scenarios.named n sorted
         = Scenarios.named n (mapi (fun i m => enrich m (show i)) ms).
Proof.
  intros p ms show n Hn. unfold get_models. cbn [snd].
  set (enriched := mapi (fun i m => enrich m (show i)) ms).
  assert (He : forallb has_name enriched = true)
    by (unfold enriched, mapi; now rewrite mapi_from_has_name).
  unfold sortedModels.
  destruct (List.length enriched <=? 1)%nat.
  - eexists. split; reflexivity.
  - rewrite He. eexists. split; [reflexivity|]. apply sort_named.
Qed.

End SortFacts.

Lemma listing_in_order_is_kept_witness :
  snd (get_models String.compare (initial None)
         (Listing Scenarios.in_order_already) Samples.second_fails)
  = Some (mkReply 200
            (JArr (map JObj
                     (mapi (fun i m => enrich m (Samples.second_fails i))
                           Scenarios.in_order_already)))).
Proof.
  apply (listing_in_order_is_kept String.compare).
  - reflexivity.
  - repeat constructor; unfold in_order; simpl; discriminate.
Defined.

Lemma String_compare_refl (a : string) : String.compare a a <> Gt.
Proof.
  intros H. now apply (String_compare_total a a).
Qed.

Lemma listing_keeps_order_of_equal_names_witness :
  exists sorted,
    snd (get_models String.compare (initial None)
           (Listing Scenarios.twins) Samples.second_fails)
    = Some (mkReply 200 (JArr (map JObj sorted)))
    /\ map (lookup "size") (Scenarios.named "llama3" sorted)
       = [Some (JNum 1); Some (JNum 2)].
Proof.
  destruct (listing_keeps_order_of_equal_names String.compare
              String_compare_refl (initial None) Scenarios.twins
              Samples.second_fails "llama3" eq_refl)
    as (sorted & E & H).
  exists sorted. split; [exact E|]. rewrite H. reflexivity.
Defined.

(** ** The streaming relay, further *)

Section RelayMore.

Variable JSON_parse_ok : string -> bool.

(** X12. Whatever happens to a relay and in whatever order, its response is
    closed at most once, and it has been closed exactly when the guard
    [hasEnded] is set. *)
Theorem response_is_closed_at_most_once :
  forall (p : process) (operation : json) (events : list event),
    closes (snd (handleModelOperation JSON_parse_ok p operation events)) <= 1
    /\ (closes (snd (handleModelOperation JSON_parse_ok p operation events))
        = 1
        <-> hasEnded (run JSON_parse_ok events) = true).
Proof.
  intros p operation events. simpl.
  destruct (run_guarded JSON_parse_ok events) as [H _]. rewrite H.
  destruct (hasEnded (run JSON_parse_ok events)); split; try lia;
    split; auto; discriminate.
Qed.

Lemma forwarded_shape (chunk : string) :
  Forall (record_or_close JSON_parse_ok) (forwarded JSON_parse_ok chunk).
Proof.
  unfold forwarded. apply Forall_forall. intros op Hop.
  apply in_map_iff in Hop as (line & <- & Hl).
  apply filter_In in Hl as [_ Hl]. apply andb_true_iff in Hl as [_ Hl].
  simpl. right. now exists line.
Qed.

Lemma step_body (r : relay) (e : event) :
  exists added,
    out (step JSON_parse_ok r e) = out r ++ added
    /\ Forall (record_or_close JSON_parse_ok) added.
Proof.
  assert (Hend : forall error,
             exists added,
               out (endResponse error r) = out r ++ added
               /\ Forall (record_or_close JSON_parse_ok) added).
  { intros error. unfold endResponse. destruct (hasEnded r).
    - exists []. now rewrite app_nil_r.
    - destruct error as [m|]; simpl.
      + exists [Write (error_record m); End]. rewrite <- app_assoc.
        split; auto.
        apply Forall_cons; [simpl; left; now exists m|].
        apply Forall_cons; [exact I|constructor].
      + exists [End]. split; auto.
        apply Forall_cons; [exact I|constructor]. }
  assert (Hsame : exists added,
             out r = out r ++ added
             /\ Forall (record_or_close JSON_parse_ok) added)
    by (exists []; now rewrite app_nil_r).
  unfold step. destruct (where_ r); destruct e;
    try exact Hsame;
    try exact (Hend None);
    try exact (Hend (Some message)).
  rewrite on_data_spec. simpl. eexists. split; [reflexivity|].
  apply forwarded_shape.
Qed.

(** X13. The response of a relay begins with its two headers and sets no
    header after them; everything that follows is the close, the error
    record, or a line that parsed as JSON with a newline after it. Nothing
    else is ever written to the client. *)
Theorem response_is_headers_then_records :
  forall events : list event,
    exists body,
      out (run JSON_parse_ok events)
      = [SetHeader "Content-Type" "application/json";
         SetHeader "Transfer-Encoding" "chunked"] ++ body
      /\ Forall (record_or_close JSON_parse_ok) body
      /\ Forall (fun op => is_header op = false) body.
Proof.
  assert (G : forall events r body,
             out r = out started ++ body ->
             Forall (record_or_close JSON_parse_ok) body ->
             exists body',
               out (fold_left (step JSON_parse_ok) events r)
               = out started ++ body'
               /\ Forall (record_or_close JSON_parse_ok) body').
  { induction events as [|e events IH]; intros r body Hr Hb; simpl.
    - now exists body.
    - destruct (step_body r e) as (added & Ha & Hf).
      apply (IH _ (body ++ added)).
      + now rewrite Ha, Hr, app_assoc.
      + apply Forall_app. now split. }
  intros events.
  destruct (G events started [] eq_refl (Forall_nil _)) as (body & E & F).
  exists body. split; [exact E|]. split; [exact F|].
  eapply Forall_impl; [|exact F].
  intros [k v|t|]; simpl; auto. intros [].
Qed.

Lemma awaiting_ignores (events : list event) :
  no_outcome events = true ->
  forall r,
    where_ r = Awaiting ->
    fold_left (step JSON_parse_ok) events r = r.
Proof.
  induction events as [|e events IH]; simpl; auto.
  intros H r W. apply andb_true_iff in H as [He H].
  assert (E : step JSON_parse_ok r e = r)
    by (unfold step; rewrite W; destruct e; auto; discriminate).
  rewrite E. now apply IH.
Qed.

Lemma detached_ignores (events : list event) :
  forall r,
    where_ r = Detached ->
    fold_left (step JSON_parse_ok) events r = r.
Proof.
  induction events as [|e events IH]; simpl; auto.
  intros r W.
  assert (E : step JSON_parse_ok r e = r)
    by (unfold step; rewrite W; now destruct e).
  rewrite E. now apply IH.
Qed.

(** X14. A relay whose initiating call fails writes the two headers, one
    error record and the close, and nothing else, whatever the client or
    anything else does before or after: no listener is registered on that
    path. *)
Theorem failed_initiation_is_final :
  forall (before after : list event) (message : string),
    no_outcome before = true ->
    out (run JSON_parse_ok (before ++ InitRejected message :: after))
    = [SetHeader "Content-Type" "application/json";
       SetHeader "Transfer-Encoding" "chunked";
       Write (error_record message); End].
Proof.
  intros before after message H.
  rewrite run_app. unfold run. rewrite (awaiting_ignores before H); auto.
  simpl. rewrite detached_ignores; reflexivity.
Qed.

Lemma data_steps (chunks : list string) :
  forall r,
    where_ r = Listening ->
    fold_left (step JSON_parse_ok) (map Data chunks) r
    = mkRelay Listening (hasEnded r)
        (out r ++ flat_map (forwarded JSON_parse_ok) chunks).
Proof.
  induction chunks as [|c chunks IH]; intros r W; simpl.
  - rewrite app_nil_r. destruct r; simpl in *. now subst.
  - rewrite IH.
    + unfold step. rewrite W, on_data_spec. simpl.
      now rewrite <- app_assoc.
    + unfold step. now rewrite W, on_data_spec.
Qed.

(** X15. A stream that runs to its end: after the headers, the response
    holds what each chunk forwards, chunk after chunk in the order of
    arrival, and then the close. *)
Theorem stream_is_forwarded_in_order :
  forall chunks : list string,
    out (run JSON_parse_ok (InitResolved :: map Data chunks ++ [StreamEnd]))
    = [SetHeader "Content-Type" "application/json";
       SetHeader "Transfer-Encoding" "chunked"]
      ++ flat_map (forwarded JSON_parse_ok) chunks ++ [End].
Proof.
  intros chunks. unfold run. simpl fold_left at 1.
  rewrite fold_left_app, data_steps by reflexivity.
  reflexivity.
Qed.

Lemma forwarded_line_end (a : string) :
  forwarded JSON_parse_ok (a ++ nl) = forwarded JSON_parse_ok a.
Proof.
  unfold forwarded, nl. rewrite split_app, filter_app, map_app. simpl.
  now rewrite app_nil_r.
Qed.

Lemma forwarded_app (a b : string) :
  forwarded JSON_parse_ok (a ++ nl ++ b)
  = forwarded JSON_parse_ok a ++ forwarded JSON_parse_ok b.
Proof.
  unfold forwarded, nl. simpl append at 2.
  now rewrite split_app, filter_app, map_app.
Qed.

Lemma step_data (r : relay) (chunk : string) :
  where_ r = Listening ->
  step JSON_parse_ok r (Data chunk)
  = mkRelay Listening (hasEnded r)
      (out r ++ forwarded JSON_parse_ok chunk).
Proof.
  intros W. unfold step. now rewrite W, on_data_spec, W.
Qed.

(** X16. A boundary between chunks that falls after a newline loses
    nothing: two chunks, the first ending in a newline, are forwarded as
    the one chunk made of both. *)
Theorem boundary_at_newline_loses_nothing :
  forall (r : relay) (a b : string),
    where_ r = Listening ->
    step JSON_parse_ok (step JSON_parse_ok r (Data (a ++ nl))) (Data b)
    = step JSON_parse_ok r (Data (a ++ nl ++ b)).
Proof.
  intros r a b W.
  rewrite (step_data r (a ++ nl) W), (step_data r (a ++ nl ++ b) W).
  rewrite step_data by reflexivity. cbn [out hasEnded where_].
  now rewrite forwarded_line_end, forwarded_app, <- app_assoc.
Qed.

Lemma ended_ignores (events : list event) :
  no_data events = true ->
  forall r,
    hasEnded r = true ->
    out (fold_left (step JSON_parse_ok) events r) = out r.
Proof.
  induction events as [|e events IH]; simpl; auto.
  intros H r E. apply andb_true_iff in H as [He H].
  rewrite IH; auto using step_stays_ended.
  unfold step. destruct (where_ r), e; auto; try discriminate;
    unfold endResponse; simpl; now rewrite E.
Qed.

(** X17. Once the guard is set, by the end of the stream, an error or an
    observed close of the client, nothing but a chunk of the backend can
    add to the response: further ends, errors and closes, in any number
    and order, leave it as it is. *)
Theorem only_data_is_written_after_end :
  forall before after : list event,
    hasEnded (run JSON_parse_ok before) = true ->
    no_data after = true ->
    out (run JSON_parse_ok (before ++ after))
    = out (run JSON_parse_ok before).
Proof.
  intros before after E H. rewrite run_app. now apply ended_ignores.
Qed.

End RelayMore.

Lemma failed_initiation_is_final_witness :
  out (run parses
         ([ClientClose; ClientClose]
          ++ InitRejected Samples.refused
             :: [ClientClose; Data (Samples.downloading ++ nl); StreamEnd]))
  = [SetHeader "Content-Type" "application/json";
     SetHeader "Transfer-Encoding" "chunked";
     Write (error_record Samples.refused); End].
Proof.
  apply (failed_initiation_is_final parses). reflexivity.
Defined.

Lemma boundary_at_newline_loses_nothing_witness :
  step parses
    (step parses (run parses [InitResolved])
          (Data (Samples.downloading ++ nl)))
    (Data (Scenarios.verifying ++ nl))
  = step parses (run parses [InitResolved])
         (Data (Samples.downloading ++ nl ++ (Scenarios.verifying ++ nl))).
Proof.
  apply (boundary_at_newline_loses_nothing parses). reflexivity.
Defined.

Lemma only_data_is_written_after_end_witness :
  out (run parses ([InitResolved; StreamEnd]
                   ++ [StreamError Samples.refused; ClientClose; StreamEnd]))
  = out (run parses [InitResolved; StreamEnd]).
Proof.
  apply (only_data_is_written_after_end parses); reflexivity.
Defined.

(** ** The error record *)

Lemma escape_char_safe (c : ascii) (rest : string) :
  JS.lacks "010" (escape_char c) = true
  /\ forall tail,
       string_body (escape_char c ++ tail) = string_body tail.
Proof.
  destruct c as [[] [] [] [] [] [] [] []]; split; try reflexivity;
    intros tail; reflexivity.
Qed.

Lemma lacks_app (c : ascii) (a b : string) :
  JS.lacks c (a ++ b) = JS.lacks c a && JS.lacks c b.
Proof.
  induction a as [|d a IH]; simpl; auto. now rewrite IH, andb_assoc.
Qed.

Lemma append_assoc (a b c : string) :
  ((a ++ b) ++ c)%string = (a ++ (b ++ c))%string.
Proof.
  induction a as [|d a IH]; simpl; auto. now rewrite IH.
Qed.

Lemma escape_safe (s : string) :
  JS.lacks "010" (escape s) = true
  /\ forall rest,
       string_body (escape s ++ String dquote rest) = Some rest.
Proof.
  induction s as [|c s [IHl IHb]]; simpl.
  - split; auto.
  - destruct (escape_char_safe c EmptyString) as [Hl Hb]. split.
    + now rewrite lacks_app, Hl, IHl.
    + intros rest. now rewrite append_assoc, Hb.
Qed.

Lemma error_record_line (message : string) :
  error_record message
  = ((dq "{'status':'error','error':"
      ++ String dquote (escape message ++ String dquote "}")) ++ nl)%string.
Proof.
  unfold error_record, quote. simpl.
  do 27 f_equal. now rewrite !append_assoc.
Qed.

Lemma object_with_text_parses (tail : string) (k : nat) :
  string_body tail = Some "}" ->
  value (S (S (S (S k))))
        (dq "{'status':'error','error':" ++ String dquote tail)
  = Some EmptyString.
Proof.
  intros H. simpl. rewrite H. reflexivity.
Qed.

(** X18. The error record is one line of valid JSON whatever the message
    holds: it has a single newline, its last character, and what stands
    before it parses as JSON; so a reader that splits at newlines, as the
    listener of [data] does, takes it for exactly one record. *)
Theorem error_record_is_one_json_line :
  forall message : string,
    exists line,
      error_record message = (line ++ nl)%string
      /\ JS.lacks "010" line = true
      /\ parses line = true
      /\ JS.split "010" (error_record message) = [line; EmptyString]
      /\ forwarded parses (error_record message)
         = [Write (error_record message)].
Proof.
  intros message.
  set (line := (dq "{'status':'error','error':"
                ++ String dquote (escape message ++ String dquote "}"))
               %string).
  destruct (escape_safe message) as [Hl Hb].
  assert (E : error_record message = (line ++ nl)%string)
    by apply error_record_line.
  assert (L : JS.lacks "010" line = true).
  { unfold line. rewrite lacks_app. simpl. now rewrite lacks_app, Hl. }
  assert (P : parses line = true).
  { unfold parses.
    assert (F : exists k, 2 * String.length line + 2 = S (S (S (S k)))).
    { unfold line. simpl. eexists. rewrite Nat.add_comm. simpl.
      rewrite Nat.add_succ_r. reflexivity. }
    destruct F as [k ->]. unfold line.
    rewrite object_with_text_parses by apply Hb. reflexivity. }
  assert (S : JS.split "010" (error_record message) = [line; EmptyString]).
  { rewrite E. unfold nl. rewrite split_app, (split_lacking _ _ L).
    reflexivity. }
  exists line. repeat split; auto.
  unfold forwarded. rewrite S. simpl.
  destruct (JS.truthy (JS.trim line)) eqn:T.
  - rewrite P. simpl. now rewrite E.
  - rewrite (blank_line_never_parses line T) in P. discriminate.
Qed.

(** ** The two streaming routes *)

(** X19. The two streaming routes are one operation: with a name that is
    not empty each issues the same single streaming call, a [POST] to
    [/api/pull] of the active target with the body [{model: name}], and
    relays it; with the empty text for a name each answers 400 and calls
    nothing. *)
Theorem streaming_routes_issue_one_pull :
  forall (parse : string -> bool) (p : process) (name : string)
         (events : list event),
    name <> EmptyString ->
    pull parse p (Some name) events
    = Relayed [mkRequest POST (at_endpoint p "/api/pull") (auth_headers p)
                 (Some (JObj [("model", JStr name)])) true]
              (out (run parse events))
    /\ update_model parse p (Some name) events
       = pull parse p (Some name) events
    /\ pull parse p (Some "") events = Answered name_required
    /\ update_model parse p (Some "") events = Answered name_required.
Proof.
  intros parse p name events H.
  destruct name as [|c name]; [congruence|].
  repeat split.
Qed.

Lemma streaming_routes_issue_one_pull_witness :
  calls_of (update_model parses (initial None) (Some "llama3")
              [InitResolved; StreamEnd])
  = [mkRequest POST "http://localhost:11434/api/pull"
       [("Authorization", "Bearer null");
        ("Content-Type", "application/json")]
       (Some (JObj [("model", JStr "llama3")])) true].
Proof.
  destruct (streaming_routes_issue_one_pull parses (initial None) "llama3"
              [InitResolved; StreamEnd]) as (H1 & H2 & _).
  - discriminate.
  - rewrite H2, H1. reflexivity.
Defined.

(** ** The users of the basic authentication *)

Lemma split_pieces_lack (c : ascii) (s : string) :
  Forall (fun x => JS.lacks c x = true) (JS.split c s).
Proof.
  induction s as [|d s IH]; simpl.
  - repeat constructor.
  - destruct (Ascii.eqb d c) eqn:E.
    + constructor; auto.
    + destruct (JS.split c s) as [|h t].
      * repeat constructor. simpl. now rewrite E.
      * inversion IH; subst. constructor; auto. simpl. now rewrite E.
Qed.

Lemma slice_to_keeps_lacks (c : ascii) (s : string) :
  JS.lacks c s = true -> forall n, JS.lacks c (JS.slice_to n s) = true.
Proof.
  induction s as [|d s IH]; intros H [|n]; simpl; auto.
  simpl in H. apply andb_true_iff in H as [-> H]. simpl. auto.
Qed.

Lemma slice_from_keeps_lacks (c : ascii) (s : string) :
  JS.lacks c s = true -> forall n, JS.lacks c (JS.slice_from n s) = true.
Proof.
  induction s as [|d s IH]; intros H [|n]; simpl; auto.
  simpl in H. apply andb_true_iff in H as [_ H]. auto.
Qed.

Lemma trimmed_head (s : string) :
  JS.trim s = s -> s <> EmptyString ->
  exists c r, s = String c r /\ JS.is_ws c = false.
Proof.
  unfold JS.trim. intros E Hs.
  destruct (JS.trimStart s) as [|c r] eqn:T.
  - simpl in E. congruence.
  - assert (W : JS.is_ws c = false).
    { clear E Hs. induction s as [|d s IH]; simpl in T; [discriminate|].
      destruct (JS.is_ws d) eqn:D; auto. now injection T as -> _. }
    rewrite trimEnd_cons in E.
    destruct (JS.trimEnd r); rewrite ?W in E; rewrite <- E; eauto.
Qed.

Lemma trim_keeps_head (c : ascii) (r : string) :
  JS.is_ws c = false -> JS.trim (String c r) <> EmptyString.
Proof.
  intros W. unfold JS.trim. simpl JS.trimStart. rewrite W, trimEnd_cons.
  destruct (JS.trimEnd r); rewrite ?W; discriminate.
Qed.

Lemma pair_shape (env : option string) (pair : string) :
  In pair (pairs env) ->
  JS.lacks "," pair = true
  /\ exists c r, pair = String c r /\ JS.is_ws c = false.
Proof.
  unfold pairs. intros H. apply filter_In in H as [H T].
  apply in_map_iff in H as (x & <- & Hx). split.
  - apply trim_lacks.
    pose proof (split_pieces_lack "," (match env with
                                        | Some s => s
                                        | None => ""
                                        end)) as F.
    rewrite Forall_forall in F. now apply F.
  - apply trimmed_head; [apply trim_idem|].
    intros E. now rewrite E in T.
Qed.

Lemma assign_own_keeps (P : string * string -> Prop) (k v : string)
    (acc : users) :
  P (k, v) -> Forall P acc -> Forall P (assign_own k v acc).
Proof.
  intros Hkv H. induction H as [|[k' v'] acc Hx Hacc IH]; simpl.
  - repeat constructor. exact Hkv.
  - destruct (String.eqb k' k) eqn:E.
    + apply String.eqb_eq in E. subst. constructor; auto.
    + constructor; auto.
Qed.

Lemma add_pair_keeps (acc : users) (pair : string) :
  JS.lacks "," pair = true ->
  (exists c r, pair = String c r /\ JS.is_ws c = false) ->
  Forall (fun kv => user_name_ok (fst kv) /\ hash_ok (snd kv)) acc ->
  Forall (fun kv => user_name_ok (fst kv) /\ hash_ok (snd kv))
         (add_pair acc pair).
Proof.
  intros Hc (c & r & -> & W) H. unfold add_pair.
  destruct (JS.indexOf ":" (String c r)) as [[|i]|] eqn:E; auto.
  unfold assign.
  destruct (String.eqb (JS.trim (JS.slice_to (S i) (String c r)))
                       "__proto__") eqn:Ep; auto.
  apply assign_own_keeps; auto. cbn [fst snd]. split.
  - unfold user_name_ok, trimmed. repeat split.
    + apply trim_idem.
    + simpl JS.slice_to. now apply trim_keeps_head.
    + now apply String.eqb_neq.
    + now apply trim_lacks, slice_to_lacks.
    + now apply trim_lacks, slice_to_keeps_lacks.
  - unfold hash_ok, trimmed. split; [apply trim_idem|].
    now apply trim_lacks, slice_from_keeps_lacks.
Qed.

(** X20. Every user that [parseHashEnv] stores has a name that is not
    empty, that [trim] leaves as it is, that holds neither a colon nor a
    comma and that is not [__proto__]; its hash is as [trim] leaves it and
    holds no comma. *)
Theorem stored_users_are_well_formed :
  forall env : option string,
    Forall (fun kv => user_name_ok (fst kv) /\ hash_ok (snd kv))
           (parseHashEnv env).
Proof.
  intros env. unfold parseHashEnv.
  assert (G : forall l acc,
             (forall pair, In pair l -> In pair (pairs env)) ->
             Forall (fun kv => user_name_ok (fst kv) /\ hash_ok (snd kv)) acc ->
             Forall (fun kv => user_name_ok (fst kv) /\ hash_ok (snd kv))
                    (fold_left add_pair l acc)).
  { induction l as [|pair l IH]; intros acc Hl Hacc; simpl; auto.
    apply IH; [intros x Hx; apply Hl; now right|].
    destruct (pair_shape env pair (Hl pair (or_introl eq_refl))) as [Hc Hh].
    now apply add_pair_keeps. }
  apply G; auto.
Qed.

Lemma own_in (k v : string) (acc : users) :
  own k acc = Some v -> In (k, v) acc.
Proof.
  induction acc as [|[k' v'] acc IH]; simpl; [discriminate|].
  destruct (String.eqb k' k) eqn:E.
  - apply String.eqb_eq in E. intros [= ->]. left. now subst.
  - intros H. right. auto.
Qed.

Section AuthFacts.

Variable bcrypt_compare : string -> string -> bool.

(** X21. The authorizer refuses, whatever the password and whatever
    [bcrypt.compare] would say, every user name that is empty, that [trim]
    would change, that holds a colon or a comma, or that is [__proto__];
    and with no hashes configured it refuses everyone. *)
Theorem authorizer_refuses_names_never_stored :
  forall (env : option string) (username password : string),
    (username = EmptyString \/ JS.trim username <> username
     \/ JS.lacks ":" username = false \/ JS.lacks "," username = false
     \/ username = "__proto__"
     \/ env = None \/ env = Some EmptyString) ->
    authorizer bcrypt_compare (parseHashEnv env) username password = false.
Proof.
  intros env username password H. unfold authorizer.
  destruct (own username (parseHashEnv env)) as [h|] eqn:E; auto.
  exfalso. apply own_in in E.
  pose proof (stored_users_are_well_formed env) as F.
  rewrite Forall_forall in F.
  destruct (F _ E) as [(Ht & Hn & Hp & Hc & Hm) _]. simpl in *.
  destruct H as [H|[H|[H|[H|[H|[H|H]]]]]]; try congruence.
  - now subst.
  - now subst.
Qed.

End AuthFacts.

Lemma authorizer_refuses_names_never_stored_witness :
  authorizer Scenarios.accepts_hunter2 (parseHashEnv Scenarios.hashes)
             " alice" "hunter2" = false.
Proof.
  apply authorizer_refuses_names_never_stored.
  right. left. discriminate.
Defined.

Lemma trimEnd_after (c : ascii) (a r : string) :
  JS.is_ws c = false ->
  JS.trimEnd (a ++ String c r) = (a ++ String c (JS.trimEnd r))%string.
Proof.
  intros W. induction a as [|d a IH].
  - simpl append. rewrite trimEnd_cons.
    destruct (JS.trimEnd r); now rewrite ?W.
  - simpl append. rewrite trimEnd_cons, IH.
    destruct a; reflexivity.
Qed.

Lemma trimStart_trimEnd_commute (s : string) :
  JS.trimStart (JS.trimEnd s) = JS.trimEnd (JS.trimStart s).
Proof.
  induction s as [|c s IH]; auto.
  destruct (JS.is_ws c) eqn:W.
  - simpl JS.trimStart at 2. rewrite W, trimEnd_cons.
    destruct (JS.trimEnd s) as [|d r] eqn:E.
    + rewrite W. simpl. apply trimEnd_empty in E. now rewrite E.
    + simpl JS.trimStart at 1. now rewrite W.
  - assert (T : JS.trimStart (String c s) = String c s)
      by (simpl; now rewrite W).
    rewrite T. now apply trimStart_of_trimEnd.
Qed.

Lemma trim_of_trimEnd (s : string) : JS.trim (JS.trimEnd s) = JS.trim s.
Proof.
  unfold JS.trim. now rewrite trimStart_trimEnd_commute, trimEnd_idem.
Qed.

Lemma own_assign_own (k v : string) (acc : users) :
  own k (assign_own k v acc) = Some v.
Proof.
  induction acc as [|[k' v'] acc IH]; simpl.
  - now rewrite String.eqb_refl.
  - destruct (String.eqb k' k) eqn:E; simpl; now rewrite E.
Qed.

Lemma pairs_app (a b : string) :
  pairs (Some (a ++ String "," b)%string) = pairs (Some a) ++ pairs (Some b).
Proof. apply entries_app. Qed.

Lemma add_pair_entry (acc : users) (user rest : string) :
  user <> EmptyString -> JS.lacks ":" user = true ->
  add_pair acc (user ++ String ":" rest)
  = assign (JS.trim user) (JS.trim rest) acc.
Proof.
  intros Hn Hc. unfold add_pair. rewrite (indexOf_first ":" user rest Hc).
  destruct user as [|c r]; [congruence|].
  change (String.length (String c r)) with (S (String.length r)).
  cbv iota.
  change (S (String.length r)) with (String.length (String c r)).
  now rewrite slice_to_prefix, slice_from_suffix.
Qed.

Section LastEntry.

Variable bcrypt_compare : string -> string -> bool.

(** X22. The last entry for a user decides: when the configuration ends in
    [,user:hash], with a user name that [parseHashEnv] can store and no
    comma in the hash, the stored hash of that user is [hash] trimmed,
    whatever entries stand before, and the authorizer asks [bcrypt.compare]
    about that hash alone; when the trimmed hash is empty the user is
    refused. *)
Theorem last_entry_for_a_user_decides :
  forall (before user hash password : string),
    user_name_ok user ->
    JS.lacks "," hash = true ->
    own user
        (parseHashEnv
           (Some (before ++ String "," (user ++ String ":" hash))%string))
    = Some (JS.trim hash)
    /\ authorizer bcrypt_compare
         (parseHashEnv
            (Some (before ++ String "," (user ++ String ":" hash))%string))
         user password
       = (if JS.truthy (JS.trim hash)
          then bcrypt_compare password (JS.trim hash) else false).
Proof.
  intros before user hash password (Ht & Hn & Hp & Hc & Hm) Hh.
  destruct (trimmed_head user Ht Hn) as (c & r & Eu & W).
  assert (Hentry : pairs (Some (user ++ String ":" hash)%string)
                   = [(user ++ String ":" (JS.trimEnd hash))%string]).
  { unfold pairs. rewrite split_lacking.
    - simpl map. unfold JS.trim.
      replace (JS.trimStart (user ++ String ":" hash))
        with (user ++ String ":" hash)%string
        by (rewrite Eu; simpl; now rewrite W).
      rewrite trimEnd_after by reflexivity.
      rewrite Eu. reflexivity.
    - rewrite lacks_app, Hm. simpl. exact Hh. }
  assert (E : own user
                (parseHashEnv
                   (Some (before ++ String "," (user ++ String ":" hash))
                         %string))
              = Some (JS.trim hash)).
  { unfold parseHashEnv. rewrite pairs_app, fold_left_app, Hentry.
    simpl fold_left. rewrite add_pair_entry by assumption.
    rewrite Ht, trim_of_trimEnd.
    unfold assign.
    replace (String.eqb user "__proto__") with false
      by (symmetry; now apply String.eqb_neq).
    apply own_assign_own. }
  split; [exact E|].
  unfold authorizer. now rewrite E.
Qed.

End LastEntry.

Lemma last_entry_for_a_user_decides_witness :
  own "alice" (parseHashEnv (Some "alice:$2a$10$abc,alice: $2a$10$xyz "))
  = Some "$2a$10$xyz"
  /\ authorizer Scenarios.accepts_hunter2
       (parseHashEnv (Some "alice:$2a$10$abc,alice: $2a$10$xyz "))
       "alice" "hunter2" = true.
Proof.
  destruct (last_entry_for_a_user_decides Scenarios.accepts_hunter2
              "alice:$2a$10$abc" "alice" " $2a$10$xyz " "hunter2")
    as [H1 H2].
  - repeat split; try reflexivity; discriminate.
  - reflexivity.
  - split; [exact H1|]. etransitivity; [exact H2|reflexivity].
Defined.

(** ** A record cut by a chunk boundary *)

Lemma forwarded_single (parse : string -> bool) (line : string) :
  JS.lacks "010" line = true ->
  forwarded parse line
  = if JS.truthy (JS.trim line) && parse line
    then [Write (line ++ nl)] else [].
Proof.
  intros H. unfold forwarded. rewrite (split_lacking _ _ H). simpl.
  now destruct (JS.truthy (JS.trim line) && parse line).
Qed.

(** X23. A record cut in two by a chunk boundary is lost: when neither
    part parses, the two chunks add nothing to the response, although the
    same record arriving in one chunk is forwarded. *)
Theorem record_cut_by_boundary_is_lost :
  forall (parse : string -> bool) (r : relay) (a b : string),
    where_ r = Listening ->
    JS.lacks "010" a = true -> JS.lacks "010" b = true ->
    parse a = false -> parse b = false ->
    parse (a ++ b)%string = true ->
    JS.truthy (JS.trim (a ++ b)) = true ->
    out (step parse (step parse r (Data a)) (Data (b ++ nl))) = out r
    /\ out (step parse r (Data ((a ++ b) ++ nl)))
       = out r ++ [Write ((a ++ b) ++ nl)].
Proof.
  intros parse r a b W La Lb Pa Pb Pab Tab.
  rewrite (step_data parse r a W), (step_data parse r ((a ++ b) ++ nl) W).
  rewrite step_data by reflexivity. cbn [out hasEnded where_].
  rewrite !forwarded_line_end.
  rewrite (forwarded_single parse a La), (forwarded_single parse b Lb).
  rewrite forwarded_single by (now rewrite lacks_app, La, Lb).
  rewrite Pa, Pb, Pab, Tab, !andb_false_r. simpl.
  now rewrite !app_nil_r.
Qed.

Lemma record_cut_by_boundary_is_lost_witness :
  out (step parses
         (step parses (run parses [InitResolved])
               (Data (dq "{'status':'verify")))
         (Data (dq "ing'}" ++ nl)))
  = out (run parses [InitResolved])
  /\ out (step parses (run parses [InitResolved])
               (Data ((dq "{'status':'verify" ++ dq "ing'}") ++ nl)))
     = out (run parses [InitResolved])
       ++ [Write ((dq "{'status':'verify" ++ dq "ing'}") ++ nl)].
Proof.
  apply (record_cut_by_boundary_is_lost parses); reflexivity.
Defined.
